(** * AWS IoT device SDK for Go: the shadow session and the credentials service

    A shallow embedding of [device/thing.go] and [credentials/credentials.go].
    The MQTT client, the file system, the TLS loader and the HTTP client are
    external collaborators: they appear as the state and the scripted answers
    of a [World] (for the session) and as the fields of a host record (for
    session construction and the credential exchange). *)

From Stdlib Require Import ZArith Ascii.
From Stdlib.Strings Require Import Byte.
From stdpp Require Import base decidable option list strings gmap pretty.

Open Scope string_scope.
Open Scope list_scope.

(** ** Go values shared by both packages *)

(** A Go [error] is observed through its message only; [nil] is [None] of
    [option error]. *)
Definition error : Type := string.

(** [errors.New(msg)] *)
Definition errors_New (msg : string) : error := msg.

#[global] Instance byte_eq_decision : EqDecision byte := Byte.byte_eq_dec.

(** [string(b)] and [[]byte(s)] *)
Definition string_of_bytes (b : list byte) : string := String.string_of_list_byte b.
Definition bytes_of_string (s : string) : list byte := String.list_byte_of_string s.

(** [tls.Certificate]: opaque key material; the zero value is empty. *)
Definition Certificate : Type := list byte.
Definition zero_Certificate : Certificate := [].

(** [time.Duration] counts nanoseconds. *)
Definition time_Second : Z := 1000000000.

Module device.

(** ** Data model *)

(** [type Shadow []byte]; [ShadowError] is an alias of it. A nil slice is the
    empty list. *)
Definition Shadow : Type := list byte.
Definition nil_Shadow : Shadow := [].

(** [func (s Shadow) String() string] *)
Definition Shadow_String (s : Shadow) : string := string_of_bytes s.

(** Channels are identified by their allocation number; the constructor
    records the element type ([chan Shadow] or [chan error]). *)
Inductive chan : Type :=
| ChanShadow (id : nat)
| ChanError (id : nat).

#[global] Instance chan_eq_dec : EqDecision chan.
Proof. solve_decision. Defined.

Definition chan_id (c : chan) : nat :=
  match c with ChanShadow id | ChanError id => id end.

(** The two closures the session registers as message handlers:
    [func(client, msg) { ch <- msg.Payload() }] and
    [func(client, msg) { ch <- errors.New(string(msg.Payload())) }]. *)
Inductive MessageHandler : Type :=
| SendPayload (id : nat)
| SendError (id : nat).

#[global] Instance MessageHandler_eq_dec : EqDecision MessageHandler.
Proof. solve_decision. Defined.

(** The channel a handler sends on. *)
Definition target (h : MessageHandler) : chan :=
  match h with
  | SendPayload id => ChanShadow id
  | SendError id => ChanError id
  end.

(** Requests handed to the MQTT client. *)
Inductive Request : Type :=
| ReqSubscribe (topic : string) (qos : Z) (callback : MessageHandler)
| ReqPublish (topic : string) (qos : Z) (retained : bool) (payload : list byte)
| ReqUnsubscribe (topics : list string)
| ReqDisconnect (quiesce : Z).

#[global] Instance Request_eq_dec : EqDecision Request.
Proof. solve_decision. Defined.

(** What happens, in order, while a goroutine is parked on a receive: the
    client's dispatch takes an inbound message and runs the handler routed
    for its topic, or somebody closes a channel. The dispatch runs one
    handler at a time, in the order of arrival (the client is made with its
    default options): [Parked h payload] is a dispatch under way, handler
    [h] parked in its send of [payload], and no later message is dispatched
    before that send has completed. *)
Inductive Arrival : Type :=
| Deliver (topic : string) (payload : list byte)
| Close (id : nat)
| Parked (h : MessageHandler) (payload : list byte).

(** The referent of [Thing.client] together with the channel heap.
    - [routes]: the client's topic router (topic to registered handler);
    - [log]: every request issued so far, oldest first;
    - [acks]: the final [token.Error()] of the upcoming requests, in order
      (an exhausted script acknowledges without error);
    - [next_chan], [closed]: the channels made so far and the closed ones;
    - [arrivals]: what happens, in order, while a receive is parked; a
      handler the dispatch is parked in stays at its head until a receiver
      takes its message. *)
Record World : Type := MkWorld {
  routes : gmap string MessageHandler;
  log : list Request;
  acks : list (option error);
  next_chan : nat;
  closed : gset nat;
  arrivals : list Arrival
}.

Definition set_arrivals (evs : list Arrival) (w : World) : World :=
  MkWorld (routes w) (log w) (acks w) (next_chan w) (closed w) evs.

(** ** Goroutine monad: a call returns, or it never does (it stays parked, or
    the program has panicked under it) *)

Inductive Outcome (A : Type) : Type :=
| Returns (a : A)
| Blocks.
Arguments Returns {A} a.
Arguments Blocks {A}.

Definition Go (A : Type) : Type := World -> Outcome A * World.

#[global] Instance Go_ret : MRet Go := fun A a w => (Returns a, w).

#[global] Instance Go_bind : MBind Go := fun A B k m w =>
  match m w with
  | (Returns a, w1) => k a w1
  | (Blocks, w1) => (Blocks, w1)
  end.

(** [defer cleanup(); body]: the deferred call runs when the body returns and
    its own result is dropped. *)
Definition defer {A B} (cleanup : Go B) (body : Go A) : Go A := fun w =>
  match body w with
  | (Returns a, w1) =>
      match cleanup w1 with
      | (Returns _, w2) => (Returns a, w2)
      | (Blocks, w2) => (Blocks, w2)
      end
  | (Blocks, w1) => (Blocks, w1)
  end.

(** ** Channels *)

(** [make(chan T)]: a fresh unbuffered channel. *)
Definition make_chan : Go nat := fun w =>
  (Returns (next_chan w),
   MkWorld (routes w) (log w) (acks w) (S (next_chan w)) (closed w) (arrivals w)).

(** A send [ch <- v] on an unbuffered channel, at the moment it is made: it
    panics on a closed channel, completes when a receiver is parked on [ch],
    and otherwise the sender parks, holding [v], until a receiver comes for
    it or the channel is closed. *)
Inductive SendResult : Type := SendDone | SendParks | SendPanics.

Definition chan_send (cl : gset nat) (receivers : list chan) (c : chan) : SendResult :=
  if decide (chan_id c ∈ cl) then SendPanics
  else if decide (c ∈ receivers) then SendDone
  else SendParks.

(** The client dispatching one inbound message: it runs the handler routed
    for the topic, whose body is a single send. A message on a topic without
    a route is dropped. [CallbackBlocks h]: the handler is parked in its
    send, and the dispatch with it. *)
Inductive Delivery : Type :=
| NoRoute
| HandedShadow (id : nat) (s : Shadow)
| HandedError (id : nat) (e : error)
| CallbackBlocks (h : MessageHandler)
| CallbackPanics (h : MessageHandler).

Definition run_handler (cl : gset nat) (receivers : list chan)
    (h : MessageHandler) (payload : list byte) : Delivery :=
  match chan_send cl receivers (target h) with
  | SendDone =>
      match h with
      | SendPayload id => HandedShadow id payload
      | SendError id => HandedError id (errors_New (string_of_bytes payload))
      end
  | SendParks => CallbackBlocks h
  | SendPanics => CallbackPanics h
  end.

Definition deliver (w : World) (receivers : list chan)
    (topic : string) (payload : list byte) : Delivery :=
  match routes w !! topic with
  | None => NoRoute
  | Some h => run_handler (closed w) receivers h payload
  end.

(** Closing takes effect on channels that exist. *)
Definition close_chan (id : nat) (w : World) : World :=
  if decide (id < next_chan w) then
    MkWorld (routes w) (log w) (acks w) (next_chan w) ({[id]} ∪ closed w) (arrivals w)
  else w.

(** What wakes a goroutine parked on a set of channels. *)
Inductive Wake : Type :=
| WokeClosed (c : chan)
| WokeShadow (id : nat) (s : Shadow)
| WokeError (id : nat) (e : error).

(** The receivers wait while the dispatch is parked in [h]'s send of
    [payload] on another channel. Inbound messages queue up behind the parked
    handler, in order; only a close can still wake a receiver. Closing the
    channel the handler sends on makes its send panic: nothing returns after
    that. What is left is the parked handler, the messages queued behind it
    and the arrivals not yet looked at. *)
Fixpoint stalled (receivers : list chan) (h : MessageHandler) (payload : list byte)
    (queued : list Arrival) (w : World) (evs : list Arrival)
    : Outcome Wake * World :=
  match evs with
  | [] => (Blocks, set_arrivals (Parked h payload :: queued) w)
  | Close id :: evs' =>
      let w1 := close_chan id w in
      if decide (chan_id (target h) ∈ closed w1) then
        (Blocks, set_arrivals (Parked h payload :: queued ++ evs') w1)
      else
        match find (fun c => bool_decide (chan_id c ∈ closed w1)) receivers with
        | Some c =>
            (Returns (WokeClosed c),
             set_arrivals (Parked h payload :: queued ++ evs') w1)
        | None => stalled receivers h payload queued w1 evs'
        end
  | ev :: evs' => stalled receivers h payload (queued ++ [ev]) w evs'
  end.

(** The dispatch runs handler [h] on [payload] while [receivers] wait: the
    send completes when one of them is parked on the handler's channel;
    otherwise the handler parks, or panics on a closed channel. *)
Definition dispatch (receivers : list chan) (h : MessageHandler) (payload : list byte)
    (w : World) (evs : list Arrival) : Outcome Wake * World :=
  match run_handler (closed w) receivers h payload with
  | HandedShadow id s => (Returns (WokeShadow id s), set_arrivals evs w)
  | HandedError id e => (Returns (WokeError id e), set_arrivals evs w)
  | CallbackBlocks _ => stalled receivers h payload [] w evs
  | CallbackPanics _ | NoRoute => (Blocks, set_arrivals (Parked h payload :: evs) w)
  end.

(** A receive on [receivers] (a plain receive, or a [select] over them) while
    [evs] happen. A closed channel yields at once. Otherwise the dispatch
    goes through the arrivals in order: a message without a route is
    dropped, a handler that finds its receiver hands its message over, and a
    handler that finds none parks the dispatch. A handler that sends on a
    closed channel panics, and the program with it: the receive never
    returns. *)
Fixpoint await (receivers : list chan) (w : World) (evs : list Arrival)
    : Outcome Wake * World :=
  match find (fun c => bool_decide (chan_id c ∈ closed w)) receivers with
  | Some c => (Returns (WokeClosed c), set_arrivals evs w)
  | None =>
      match evs with
      | [] => (Blocks, set_arrivals [] w)
      | Deliver topic payload :: evs' =>
          match deliver w receivers topic payload with
          | NoRoute => await receivers w evs'
          | HandedShadow id s => (Returns (WokeShadow id s), set_arrivals evs' w)
          | HandedError id e => (Returns (WokeError id e), set_arrivals evs' w)
          | CallbackBlocks h => stalled receivers h payload [] w evs'
          | CallbackPanics h => (Blocks, set_arrivals (Parked h payload :: evs') w)
          end
      | Parked h payload :: evs' => dispatch receivers h payload w evs'
      | Close id :: evs' => await receivers (close_chan id w) evs'
      end
  end.

(** The result of
    [select { case s, ok := <-shadowChan: ... case err, ok := <-errChan: ... }]. *)
Inductive Selected : Type :=
| CaseShadow (s : Shadow) (ok : bool)
| CaseErr (err : option error) (ok : bool).

Definition select2 (shadowChan errChan : nat) : Go Selected := fun w =>
  match await [ChanShadow shadowChan; ChanError errChan] w (arrivals w) with
  | (Returns (WokeClosed (ChanShadow _)), w1) => (Returns (CaseShadow nil_Shadow false), w1)
  | (Returns (WokeClosed (ChanError _)), w1) => (Returns (CaseErr None false), w1)
  | (Returns (WokeShadow _ s), w1) => (Returns (CaseShadow s true), w1)
  | (Returns (WokeError _ e), w1) => (Returns (CaseErr (Some e) true), w1)
  | (Blocks, w1) => (Blocks, w1)
  end.

(** ** The MQTT client: each call below is the request followed by
    [token.Wait()] and [token.Error()] *)

Definition next_ack (w : World) : option error * list (option error) :=
  match acks w with
  | [] => (None, [])
  | a :: rest => (a, rest)
  end.

Definition Subscribe (topic : string) (qos : Z) (callback : MessageHandler)
    : Go (option error) := fun w =>
  let '(a, rest) := next_ack w in
  (Returns a,
   MkWorld (match a with None => <[topic := callback]> (routes w) | Some _ => routes w end)
           (log w ++ [ReqSubscribe topic qos callback]) rest
           (next_chan w) (closed w) (arrivals w)).

Definition Publish (topic : string) (qos : Z) (retained : bool) (payload : list byte)
    : Go (option error) := fun w =>
  let '(a, rest) := next_ack w in
  (Returns a,
   MkWorld (routes w) (log w ++ [ReqPublish topic qos retained payload]) rest
           (next_chan w) (closed w) (arrivals w)).

Definition drop_routes (topics : list string) (r : gmap string MessageHandler)
    : gmap string MessageHandler :=
  foldr delete r topics.

Definition Unsubscribe (topics : list string) : Go (option error) := fun w =>
  let '(a, rest) := next_ack w in
  (Returns a,
   MkWorld (match a with None => drop_routes topics (routes w) | Some _ => routes w end)
           (log w ++ [ReqUnsubscribe topics]) rest
           (next_chan w) (closed w) (arrivals w)).


(** ** Go's [path.Join] and [path.Clean], by path element *)

Fixpoint split_slash (s : string) : list string :=
  match s with
  | EmptyString => [EmptyString]
  | String c s' =>
      if decide (c = "/"%char) then EmptyString :: split_slash s'
      else match split_slash s' with
           | e :: es => String c e :: es
           | [] => [String c EmptyString]
           end
  end.

Fixpoint join_slash (es : list string) : string :=
  match es with
  | [] => ""
  | [e] => e
  | e :: es' => e +:+ "/" +:+ join_slash es'
  end.

(** [out] is the output written so far, last element first. Empty and [.]
    elements are dropped; [..] removes the element before it when there is
    one to remove, is dropped at the root, and is kept otherwise. *)
Fixpoint clean_elems (rooted : bool) (out : list string) (es : list string)
    : list string :=
  match es with
  | [] => rev out
  | e :: es' =>
      if decide (e = "") then clean_elems rooted out es'
      else if decide (e = ".") then clean_elems rooted out es'
      else if decide (e = "..") then
        match out with
        | top :: out' =>
            if decide (top = "..") then clean_elems rooted (e :: out) es'
            else clean_elems rooted out' es'
        | [] =>
            if rooted then clean_elems rooted out es'
            else clean_elems rooted [e] es'
        end
      else clean_elems rooted (e :: out) es'
  end.

Definition is_rooted (p : string) : bool :=
  match p with
  | String c _ => bool_decide (c = "/"%char)
  | EmptyString => false
  end.

Definition Clean (p : string) : string :=
  if decide (p = "") then "."
  else
    let rooted := is_rooted p in
    let out := join_slash (clean_elems rooted [] (split_slash p)) in
    if rooted then "/" +:+ out
    else if decide (out = "") then "." else out.

Definition Join (elem : list string) : string :=
  let buf := foldl (fun buf e => if decide (buf = "") then e else buf +:+ "/" +:+ e)
                   "" elem in
  if decide (buf = "") then "" else Clean buf.

(** ** Session construction *)

Record KeyPair : Type := {
  PrivateKeyPath : string;
  CertificatePath : string;
  CACertificatePath : string
}.

(** [tls.Config]; the pool holds the PEM data handed to [AppendCertsFromPEM]. *)
Record tls_Config : Type := {
  Certificates : list Certificate;
  RootCAs : list (list byte)
}.

(** [mqtt.ClientOptions], the fields the constructor sets. *)
Record ClientOptions : Type := {
  Servers : list string;
  MaxReconnectInterval : Z;
  ClientID : string;
  TLSConfig : tls_Config
}.

(** The calls the constructor makes outside the package:
    [tls.LoadX509KeyPair(certFile, keyFile)], [ioutil.ReadFile(name)] and
    [c.Connect()] followed by [token.Wait()] and [token.Error()]. *)
Record Host : Type := {
  LoadX509KeyPair : string -> string -> Certificate * option error;
  ReadFile : string -> list byte * option error;
  Connect : ClientOptions -> option error
}.

(** [Thing.client] is a handle: the client is the one built from these
    options, and its state is the [World] the methods run in. *)
Record Thing : Type := {
  client : ClientOptions;
  thingName : string
}.

Definition NewThing (host : Host) (keyPair : KeyPair) (awsEndpoint : string)
    (thingName : string) : option Thing * option error :=
  let '(tlsCert, err) :=
    LoadX509KeyPair host (CertificatePath keyPair) (PrivateKeyPath keyPair) in
  let certs : list (list byte) := [] in
  (* [caPem, err := ioutil.ReadFile(...)] assigns [err] again *)
  let '(caPem, err) := ReadFile host (CACertificatePath keyPair) in
  match err with
  | Some e => (None, Some e)
  | None =>
      let certs := certs ++ [caPem] in
      let tlsConfig := {| Certificates := [tlsCert]; RootCAs := certs |} in
      match err with
      | Some e => (None, Some e)
      | None =>
          let awsServerURL := "ssl://" +:+ awsEndpoint +:+ ":8883" in
          let mqttOpts :=
            {| Servers := [awsServerURL];
               MaxReconnectInterval := 1 * time_Second;
               ClientID := thingName;
               TLSConfig := tlsConfig |} in
          match Connect host mqttOpts with
          | Some e => (None, Some e)
          | None => (Some {| client := mqttOpts; thingName := thingName |}, None)
          end
      end
  end.

(** ** Session methods *)

(** [func (t *Thing) Disconnect()]: [t.client.Disconnect(1)] has no token. *)
Definition Disconnect (t : Thing) : Go unit := fun w =>
  (Returns tt,
   MkWorld (routes w) (log w ++ [ReqDisconnect 1]) (acks w)
           (next_chan w) (closed w) (arrivals w)).

(** [func (t Thing) unsubscribe(topics ...string) error] *)
Definition unsubscribe (t : Thing) (topics : list string) : Go (option error) :=
  Unsubscribe topics.

Definition GetThingShadow (t : Thing) : Go (Shadow * option error) :=
  shadowChan ← make_chan;
  errChan ← make_chan;
  defer
    (unsubscribe t
       ["$aws/things/" +:+ thingName t +:+ "/shadow/get/accepted";
        "$aws/things/" +:+ thingName t +:+ "/shadow/get/rejected"])
    (err ← Subscribe ("$aws/things/" +:+ thingName t +:+ "/shadow/get/accepted") 0
                     (SendPayload shadowChan);
     match err with
     | Some e => mret (nil_Shadow, Some e)
     | None =>
     err ← Subscribe ("$aws/things/" +:+ thingName t +:+ "/shadow/get/rejected") 0
                     (SendError errChan);
     match err with
     | Some e => mret (nil_Shadow, Some e)
     | None =>
     err ← Publish ("$aws/things/" +:+ thingName t +:+ "/shadow/get") 0 false
                   (bytes_of_string "{}");
     match err with
     | Some e => mret (nil_Shadow, Some e)
     | None =>
     sel ← select2 shadowChan errChan;
     match sel with
     | CaseShadow s ok =>
         if negb ok
         then mret (nil_Shadow, Some (errors_New "failed to read from shadow channel"))
         else mret (s, None)
     | CaseErr err ok =>
         if negb ok
         then mret (nil_Shadow, Some (errors_New "failed to read from error channel"))
         else mret (nil_Shadow, err)
     end
     end end end).

Definition UpdateThingShadow (t : Thing) (payload : Shadow) : Go (option error) :=
  Publish ("$aws/things/" +:+ thingName t +:+ "/shadow/update") 0 false payload.

Definition SubscribeForThingShadowChanges (t : Thing)
    : Go (option chan * option chan * option error) :=
  shadowChan ← make_chan;
  shadowErrChan ← make_chan;
  err ← Subscribe ("$aws/things/" +:+ thingName t +:+ "/shadow/update/accepted") 0
                  (SendPayload shadowChan);
  match err with
  | Some e => mret (None, None, Some e)
  | None =>
  err ← Subscribe ("$aws/things/" +:+ thingName t +:+ "/shadow/update/rejected") 0
                  (SendPayload shadowErrChan);
  match err with
  | Some e => mret (None, None, Some e)
  | None => mret (Some (ChanShadow shadowChan), Some (ChanShadow shadowErrChan), None)
  end end.

Definition UpdateThingShadowDocument (t : Thing) (payload : Shadow) : Go (option error) :=
  Publish ("$aws/things/" +:+ thingName t +:+ "/shadow/update/documents") 0 false payload.

Definition DeleteThingShadow (t : Thing) : Go (option error) :=
  shadowChan ← make_chan;
  errChan ← make_chan;
  defer
    (unsubscribe t
       ["$aws/things/" +:+ thingName t +:+ "/shadow/delete/accepted";
        "$aws/things/" +:+ thingName t +:+ "/shadow/delete/rejected"])
    (err ← Subscribe ("$aws/things/" +:+ thingName t +:+ "/shadow/delete/accepted") 0
                     (SendPayload shadowChan);
     match err with
     | Some e => mret (Some e)
     | None =>
     err ← Subscribe ("$aws/things/" +:+ thingName t +:+ "/shadow/delete/rejected") 0
                     (SendError errChan);
     match err with
     | Some e => mret (Some e)
     | None =>
     err ← Publish ("$aws/things/" +:+ thingName t +:+ "/shadow/delete") 0 false
                   (bytes_of_string "{}");
     match err with
     | Some e => mret (Some e)
     | None =>
     sel ← select2 shadowChan errChan;
     match sel with
     | CaseShadow _ ok =>
         if negb ok
         then mret (Some (errors_New "failed to read from shadow channel"))
         else mret None
     | CaseErr err ok =>
         if negb ok
         then mret (Some (errors_New "failed to read from error channel"))
         else mret err
     end
     end end end).

Definition PublishToCustomTopic (t : Thing) (payload : Shadow) (topic : string)
    : Go (option error) :=
  Publish (Join ["$aws/things"; thingName t; topic]) 0 false payload.

Definition SubscribeForCustomTopic (t : Thing) (topic : string)
    : Go (option chan * option error) :=
  shadowChan ← make_chan;
  err ← Subscribe (Join ["$aws/things"; thingName t; topic]) 0 (SendPayload shadowChan);
  match err with
  | Some e => mret (None, Some e)
  | None => mret (Some (ChanShadow shadowChan), None)
  end.

Definition UnsubscribeFromCustomTopic (t : Thing) (topic : string) : Go (option error) :=
  unsubscribe t [Join ["$aws/things"; thingName t; topic]].

End device.

Module credentials.

(** ** The credentials service *)

Record Service : Type := {
  url : string;
  thingName : string;
  tlsCert : Certificate
}.

Record Output : Type := {
  AccessKeyId : string;
  SecretAccessKey : string;
  SessionToken : string;
  Expiration : string
}.

(** [Output{}] *)
Definition zero_Output : Output :=
  {| AccessKeyId := ""; SecretAccessKey := ""; SessionToken := ""; Expiration := "" |}.

(** [http.Client] with the TLS client certificates of its transport. *)
Record http_Client : Type := {
  TLSClientCertificates : list Certificate;
  Timeout : Z
}.

Record http_Request : Type := {
  Method : string;
  URL : string;
  Header : list (string * string)
}.

(** A response body is a stream: the bytes it yields and the failure, if any,
    met while reading it. *)
Record ReadCloser : Type := {
  content : list byte;
  read_err : option error
}.

Record http_Response : Type := {
  StatusCode : Z;
  Body : ReadCloser
}.

Definition http_StatusOK : Z := 200.

(** The calls made outside the package: [tls.LoadX509KeyPair], the URL check
    of [http.NewRequest], [client.Do(req)], and
    [json.NewDecoder(body).Decode(&result)] read at [result.Credentials]. *)
Record Host : Type := {
  LoadX509KeyPair : string -> string -> Certificate * option error;
  ParseURL : string -> option error;
  Do : http_Client -> http_Request -> http_Response + error;
  Decode : ReadCloser -> Output + error
}.

Definition NewService (host : Host) (iotCredentialsURL certPath privateKeyPath
    thingName : string) : option Service * option error :=
  let '(tlsCert, err) := LoadX509KeyPair host certPath privateKeyPath in
  match err with
  | Some e => (None, Some ("failed to load the certificates: " +:+ e))
  | None =>
      (Some {| url := iotCredentialsURL; thingName := thingName; tlsCert := tlsCert |},
       None)
  end.

(** [http.NewRequest(method, url, nil)] *)
Definition http_NewRequest (host : Host) (method url : string)
    : http_Request + error :=
  match ParseURL host url with
  | Some e => inr e
  | None => inl {| Method := method; URL := url; Header := [] |}
  end.

(** [req.Header.Add(key, value)] *)
Definition Header_Add (key value : string) (req : http_Request) : http_Request :=
  {| Method := Method req; URL := URL req; Header := Header req ++ [(key, value)] |}.

(** [ioutil.ReadAll(body)] *)
Definition ReadAll (body : ReadCloser) : list byte * option error :=
  (content body, read_err body).

(** The result of the call, and the exchanges handed to [client.Do]. *)
Definition GetCredentials (host : Host) (s : Service)
    : (Output * option error) * list (http_Client * http_Request) :=
  let client :=
    {| TLSClientCertificates := [tlsCert s]; Timeout := time_Second * 10 |} in
  match http_NewRequest host "GET" (url s) with
  | inr err =>
      ((zero_Output, Some ("failed to create the credentials request: " +:+ err)), [])
  | inl req =>
      let req := Header_Add "x-amzn-iot-thingname" (thingName s) req in
      match Do host client req with
      | inr err =>
          ((zero_Output,
            Some ("failed to perform the GET credentials request: " +:+ err)),
           [(client, req)])
      | inl resp =>
          if decide (StatusCode resp ≠ http_StatusOK) then
            let '(body, err) := ReadAll (Body resp) in
            match err with
            | Some err =>
                ((zero_Output, Some ("failed to parse the response body: " +:+ err)),
                 [(client, req)])
            | None =>
                ((zero_Output,
                  Some ("the request has failed with the status code: "
                        +:+ pretty (StatusCode resp) +:+ "; message: "
                        +:+ string_of_bytes body)),
                 [(client, req)])
            end
          else
            match Decode host (Body resp) with
            | inr err =>
                ((zero_Output,
                  Some ("failed to parse credentials response body: " +:+ err)),
                 [(client, req)])
            | inl credentials => ((credentials, None), [(client, req)])
            end
      end
  end.

End credentials.

Module device_region.

(** ** The earlier revision of the session, addressed by region

    Its [KeyPair] has no CA path, [NewThing] takes the region, and
    [GetThingShadow] has no deferred unsubscribe. *)

Import device.

Record KeyPair : Type := {
  PrivateKeyPath : string;
  CertificatePath : string
}.

Definition NewThing (host : Host) (keyPair : KeyPair) (thingName : string)
    (region : string) : option Thing * option error :=
  let '(tlsCert, err) :=
    LoadX509KeyPair host (CertificatePath keyPair) (PrivateKeyPath keyPair) in
  match err with
  | Some e => (None, Some e)
  | None =>
      let awsServerURL := "ssl://data.iot." +:+ region +:+ ".amazonaws.com:8883" in
      let mqttOpts :=
        {| Servers := [awsServerURL];
           MaxReconnectInterval := 1 * time_Second;
           ClientID := thingName;
           TLSConfig := {| Certificates := [tlsCert]; RootCAs := [] |} |} in
      (* [token := c.Connect(); token.Wait()] *)
      let token_Error := Connect host mqttOpts in
      (Some {| client := mqttOpts; thingName := thingName |}, token_Error)
  end.

Definition GetThingShadow (t : Thing) : Go (Shadow * option error) :=
  shadowChan ← make_chan;
  errChan ← make_chan;
  err ← Subscribe ("$aws/things/" +:+ thingName t +:+ "/shadow/get/accepted") 0
                  (SendPayload shadowChan);
  match err with
  | Some e => mret (nil_Shadow, Some e)
  | None =>
  err ← Subscribe ("$aws/things/" +:+ thingName t +:+ "/shadow/get/rejected") 0
                  (SendError errChan);
  match err with
  | Some e => mret (nil_Shadow, Some e)
  | None =>
  err ← Publish ("$aws/things/" +:+ thingName t +:+ "/shadow/get") 0 false
                (bytes_of_string "{}");
  match err with
  | Some e => mret (nil_Shadow, Some e)
  | None =>
  sel ← select2 shadowChan errChan;
  match sel with
  | CaseShadow s ok =>
      if negb ok
      then mret (nil_Shadow, Some (errors_New "failed to read from shadow channel"))
      else mret (s, None)
  | CaseErr err ok =>
      if negb ok
      then mret (nil_Shadow, Some (errors_New "failed to read from error channel"))
      else mret (nil_Shadow, err)
  end
  end end end.

(** [SubscribeForThingShadowChanges] of this revision: one channel, returned
    whatever the token says. *)
Definition SubscribeForThingShadowChanges (t : Thing) : Go (option chan * option error) :=
  shadowChan ← make_chan;
  err ← Subscribe ("$aws/things/" +:+ thingName t +:+ "/shadow/update/accepted") 0
                  (SendPayload shadowChan);
  mret (Some (ChanShadow shadowChan), err).

End device_region.

Import device.

(** * Vocabulary of the statements *)

Definition is_publish (r : Request) : bool :=
  match r with ReqPublish _ _ _ _ => true | _ => false end.

Definition is_unsubscribe (r : Request) : bool :=
  match r with ReqUnsubscribe _ => true | _ => false end.

(** The answer of the [i]-th upcoming request. *)
Definition ack_at (i : nat) (w : World) : option error :=
  default None (acks w !! i).

(** The failure of the first of the next two requests that fails. *)
Definition subscribe_failure (w : World) : option error :=
  match ack_at 0 w with
  | Some e => Some e
  | None => ack_at 1 w
  end.

(** ** Anatomy of a correlated request

    [GetThingShadow] and [DeleteThingShadow] share one skeleton; a run of it
    leaves through one of four doors or stays parked in the [select]. *)

Section Anatomy.
Context {A : Type}.
Variables (acc rej trig : string) (fail : error -> A) (resolve : Selected -> A).

Definition sub_accepted (w : World) : Request :=
  ReqSubscribe acc 0 (SendPayload (next_chan w)).
Definition sub_rejected (w : World) : Request :=
  ReqSubscribe rej 0 (SendError (S (next_chan w))).
Definition pub_trigger : Request :=
  ReqPublish trig 0 false (bytes_of_string "{}").

(** The world in which the body of the call stops after [k] requests. *)
Definition at_exit (k : nat) (w : World) : World :=
  MkWorld
    (match k with
     | 0 | 1 => routes w
     | 2 => <[acc := SendPayload (next_chan w)]> (routes w)
     | _ => <[rej := SendError (S (next_chan w))]>
              (<[acc := SendPayload (next_chan w)]> (routes w))
     end)
    (log w ++ take k [sub_accepted w; sub_rejected w; pub_trigger])
    (drop k (acks w)) (S (S (next_chan w))) (closed w) (arrivals w).

Definition cleaned (w1 : World) : World := (Unsubscribe [acc; rej] w1).2.

Definition correlated_run (r : Outcome A * World) (w : World) : Prop :=
  match ack_at 0 w, ack_at 1 w, ack_at 2 w with
  | Some e, _, _ => r = (Returns (fail e), cleaned (at_exit 1 w))
  | None, Some e, _ => r = (Returns (fail e), cleaned (at_exit 2 w))
  | None, None, Some e => r = (Returns (fail e), cleaned (at_exit 3 w))
  | None, None, None =>
      match select2 (next_chan w) (S (next_chan w)) (at_exit 3 w) with
      | (Returns sel, w4) => r = (Returns (resolve sel), cleaned w4)
      | (Blocks, w4) => r = (Blocks, w4)
      end
  end.
End Anatomy.

Definition get_fail (e : error) : Shadow * option error := (nil_Shadow, Some e).
Definition get_resolve (sel : Selected) : Shadow * option error :=
  match sel with
  | CaseShadow s true => (s, None)
  | CaseShadow _ false => (nil_Shadow, Some "failed to read from shadow channel")
  | CaseErr err true => (nil_Shadow, err)
  | CaseErr _ false => (nil_Shadow, Some "failed to read from error channel")
  end.

Definition delete_resolve (sel : Selected) : option error :=
  match sel with
  | CaseShadow _ true => None
  | CaseShadow _ false => Some "failed to read from shadow channel"
  | CaseErr err true => err
  | CaseErr _ false => Some "failed to read from error channel"
  end.

Definition no_publish (new : list Request) : Prop :=
  Forall (fun r => is_publish r = false) new.

(** Both subscribes, in order and for fresh channels, then the trigger, and no
    second publish after it. *)
Definition subscribes_then_publishes (acc rej trig : string) (w : World)
    (new : list Request) : Prop :=
  exists rest,
    new = ReqSubscribe acc 0 (SendPayload (next_chan w))
          :: ReqSubscribe rej 0 (SendError (S (next_chan w)))
          :: ReqPublish trig 0 false (bytes_of_string "{}") :: rest
    /\ no_publish rest.

(** The call is over: the last request was the unsubscribe of both outcome
    topics, and once it is acknowledged neither topic is routed any more. *)
Definition unsubscribed_at_return (acc rej : string) (w w' : World) : Prop :=
  exists pre,
    log w' = log w ++ pre ++ [ReqUnsubscribe [acc; rej]] /\
    Forall (fun r => is_unsubscribe r = false) pre /\
    (ack_at (length pre) w = None ->
     routes w' !! acc = None /\ routes w' !! rej = None).

(** The two subscribes and the publish of a correlated request are
    acknowledged without error: the call gets to its [select]. *)
Definition requests_acknowledged (w : World) : Prop :=
  ack_at 0 w = None /\ ack_at 1 w = None /\ ack_at 2 w = None.

(** Every routed handler sends on a channel that exists, and so does every
    closed channel: what any reachable state satisfies. *)
Definition wf (w : World) : Prop :=
  (forall topic h, routes w !! topic = Some h -> chan_id (target h) < next_chan w) /\
  (forall id, id ∈ closed w -> id < next_chan w).

(** An arrival that concerns the two sinks of a correlated request: a
    message on one of its outcome topics, or the close of one of its
    channels. *)
Definition concerns (acc rej : string) (a b : nat) (ev : Arrival) : bool :=
  match ev with
  | Deliver topic _ => bool_decide (topic = acc) || bool_decide (topic = rej)
  | Close id => bool_decide (id = a) || bool_decide (id = b)
  | Parked _ _ => false
  end.

(** The first arrival that concerns the two sinks, when the dispatch gets as
    far: every message before it is on a topic without a route in [routed],
    so that the client drops it. The answer is [Some None] when the arrivals
    run out before anything concerns the sinks, and [None] when a routed
    message or a parked handler comes first: the dispatch then waits for a
    receiver that the request is not. *)
Fixpoint first_concern (acc rej : string) (a b : nat)
    (routed : gmap string MessageHandler) (evs : list Arrival)
    : option (option Arrival) :=
  match evs with
  | [] => Some None
  | ev :: evs' =>
      if concerns acc rej a b ev then Some (Some ev)
      else
        match ev with
        | Deliver topic _ =>
            match routed !! topic with
            | None => first_concern acc rej a b routed evs'
            | Some _ => None
            end
        | Close _ => first_concern acc rej a b routed evs'
        | Parked _ _ => None
        end
  end.

(** What the first concerning arrival makes of the [select]. *)
Definition first_wins (acc : string) (a : nat) (ev : option Arrival)
    : Outcome Selected :=
  match ev with
  | Some (Deliver topic payload) =>
      if decide (topic = acc) then Returns (CaseShadow payload true)
      else Returns (CaseErr (Some (errors_New (string_of_bytes payload))) true)
  | Some (Close id) =>
      if decide (id = a) then Returns (CaseShadow nil_Shadow false)
      else Returns (CaseErr None false)
  | Some (Parked _ _) | None => Blocks
  end.

(** The state of a request parked on its two sinks. *)
Record awaiting (acc rej : string) (a b : nat) (w : World) : Prop := {
  aw_acc : routes w !! acc = Some (SendPayload a);
  aw_rej : routes w !! rej = Some (SendError b);
  aw_others : forall topic h, routes w !! topic = Some h ->
              topic <> acc -> topic <> rej ->
              chan_id (target h) <> a /\ chan_id (target h) <> b;
  aw_open : (a ∉ closed w) /\ (b ∉ closed w);
  aw_made : a < next_chan w /\ b < next_chan w;
  aw_distinct : a <> b
}.

Definition wake_selected (o : Outcome Wake) : Outcome Selected :=
  match o with
  | Returns (WokeClosed (ChanShadow _)) => Returns (CaseShadow nil_Shadow false)
  | Returns (WokeClosed (ChanError _)) => Returns (CaseErr None false)
  | Returns (WokeShadow _ s) => Returns (CaseShadow s true)
  | Returns (WokeError _ e) => Returns (CaseErr (Some e) true)
  | Blocks => Blocks
  end.

(** What a correlated request makes of the first arrival that concerns it. *)
Definition resolution {A} (resolve : Selected -> A) (o : Outcome Selected) : Outcome A :=
  match o with
  | Returns sel => Returns (resolve sel)
  | Blocks => Blocks
  end.

(** What the receiver is handed when the handler's send completes. *)
Definition handed (h : MessageHandler) (payload : list byte) : Delivery :=
  match h with
  | SendPayload id => HandedShadow id payload
  | SendError id => HandedError id (errors_New (string_of_bytes payload))
  end.

(** The methods of a [Thing]. *)
Inductive SessionOp : Type :=
| OpDisconnect
| OpGetThingShadow
| OpUpdateThingShadow (payload : Shadow)
| OpSubscribeForThingShadowChanges
| OpUpdateThingShadowDocument (payload : Shadow)
| OpDeleteThingShadow
| OpPublishToCustomTopic (payload : Shadow) (topic : string)
| OpSubscribeForCustomTopic (topic : string)
| OpUnsubscribeFromCustomTopic (topic : string).

(** The world a call leaves behind, returned or parked. *)
Definition step (t : Thing) (w : World) (op : SessionOp) : World :=
  match op with
  | OpDisconnect => (Disconnect t w).2
  | OpGetThingShadow => (GetThingShadow t w).2
  | OpUpdateThingShadow payload => (UpdateThingShadow t payload w).2
  | OpSubscribeForThingShadowChanges => (SubscribeForThingShadowChanges t w).2
  | OpUpdateThingShadowDocument payload => (UpdateThingShadowDocument t payload w).2
  | OpDeleteThingShadow => (DeleteThingShadow t w).2
  | OpPublishToCustomTopic payload topic => (PublishToCustomTopic t payload topic w).2
  | OpSubscribeForCustomTopic topic => (SubscribeForCustomTopic t topic w).2
  | OpUnsubscribeFromCustomTopic topic => (UnsubscribeFromCustomTopic t topic w).2
  end.

Definition run_ops (t : Thing) (ops : list SessionOp) (w : World) : World :=
  foldl (step t) w ops.

(** [w'] comes after [w]: channels are only added, a new route sends on a
    channel made since [w], a channel closed since [w] was closed by an
    arrival, and no close is added to the arrivals. *)
Record extends (w w' : World) : Prop := {
  ext_chan : next_chan w <= next_chan w';
  ext_routes : forall topic h, routes w' !! topic = Some h ->
               routes w !! topic = Some h \/ next_chan w <= chan_id (target h);
  ext_closed : forall id, id ∈ closed w' -> id ∈ closed w \/ Close id ∈ arrivals w;
  ext_arrivals : forall id, Close id ∈ arrivals w' -> Close id ∈ arrivals w
}.

(** The closed set of shadow suffixes. *)
Definition shadow_suffixes : list string :=
  ["get"; "get/accepted"; "get/rejected";
   "update"; "update/accepted"; "update/rejected"; "update/documents";
   "delete"; "delete/accepted"; "delete/rejected"].

Definition shadow_topic (name suffix : string) : string :=
  "$aws/things/" +:+ name +:+ "/shadow/" +:+ suffix.

Definition is_shadow_topic (name topic : string) : Prop :=
  exists suffix, suffix ∈ shadow_suffixes /\ topic = shadow_topic name suffix.

Definition request_topics (r : Request) : list string :=
  match r with
  | ReqSubscribe topic _ _ | ReqPublish topic _ _ _ => [topic]
  | ReqUnsubscribe topics => topics
  | ReqDisconnect _ => []
  end.

Definition is_shadow_op (op : SessionOp) : bool :=
  match op with
  | OpGetThingShadow | OpUpdateThingShadow _ | OpSubscribeForThingShadowChanges
  | OpUpdateThingShadowDocument _ | OpDeleteThingShadow => true
  | _ => false
  end.

(** The custom suffix an operation was given, if it takes one. *)
Definition custom_suffix (op : SessionOp) : option string :=
  match op with
  | OpPublishToCustomTopic _ topic | OpSubscribeForCustomTopic topic
  | OpUnsubscribeFromCustomTopic topic => Some topic
  | _ => None
  end.

(** The requests a call adds to the log. *)
Definition requests_of (t : Thing) (w : World) (op : SessionOp) : list Request :=
  drop (length (log w)) (log (step t w op)).

(** A path element that [path.Clean] keeps as it is. *)
Definition plain (e : string) : Prop := e <> "" /\ e <> ".".

#[global] Instance plain_dec e : Decision (plain e).
Proof. unfold plain. apply _. Defined.

(** The elements [path.Clean] writes: none is empty, none holds a separator. *)
Definition written (e : string) : Prop := e <> "" /\ split_slash e = [e].

(** The spec's reading of a custom topic: the three parts joined with [/],
    runs of separators squeezed to one. *)
Fixpoint squeeze_slashes (after_slash : bool) (s : string) : string :=
  match s with
  | EmptyString => EmptyString
  | String c s' =>
      if decide (c = "/"%char) then
        if after_slash then squeeze_slashes true s'
        else String c (squeeze_slashes true s')
      else String c (squeeze_slashes false s')
  end.

Definition spec_custom_topic (name suffix : string) : string :=
  squeeze_slashes false ("$aws/things/" +:+ name +:+ "/" +:+ suffix).

(** The options [NewThing] hands to [mqtt.NewClient]. *)
Definition client_options (tlsCert : Certificate) (caPem : list byte)
    (awsEndpoint name : string) : ClientOptions :=
  {| Servers := ["ssl://" +:+ awsEndpoint +:+ ":8883"];
     MaxReconnectInterval := 1 * time_Second;
     ClientID := name;
     TLSConfig := {| Certificates := [tlsCert]; RootCAs := [caPem] |} |}.

(** [sub] occurs in [s]. *)
Fixpoint contains (s sub : string) : bool :=
  String.prefix sub s ||
  match s with
  | EmptyString => false
  | String _ s' => contains s' sub
  end.

(** The client and the request [GetCredentials] builds. *)
Definition credentials_client (s : credentials.Service) : credentials.http_Client :=
  {| credentials.TLSClientCertificates := [credentials.tlsCert s];
     credentials.Timeout := 10 * time_Second |}.

Definition credentials_request (s : credentials.Service) : credentials.http_Request :=
  {| credentials.Method := "GET";
     credentials.URL := credentials.url s;
     credentials.Header := [("x-amzn-iot-thingname", credentials.thingName s)] |}.

(** The claim's reading of the two failures: the error carries the body. *)
Definition error_carries_body (host : credentials.Host) (s : credentials.Service)
    (resp : credentials.http_Response) : Prop :=
  exists msg,
    (credentials.GetCredentials host s).1 = (credentials.zero_Output, Some msg) /\
    contains msg (string_of_bytes (credentials.content (credentials.Body resp))) = true.

Definition test_thing : Thing :=
  {| client := client_options zero_Certificate []
                 "example-ats.iot.us-east-1.amazonaws.com" "test";
     thingName := "test" |}.

(** A connected client with no subscription yet. *)
Definition fresh_world (answers : list (option error)) (evs : list Arrival) : World :=
  MkWorld ∅ [] answers 0 ∅ evs.

(** The broker rejects the get while an unrelated update is also delivered. *)
Definition rejected_get_arrivals : list Arrival :=
  [Deliver "$aws/things/test/shadow/update/accepted" (bytes_of_string "ignored");
   Deliver "$aws/things/test/shadow/get/rejected" (bytes_of_string "no shadow exists");
   Deliver "$aws/things/test/shadow/get/accepted" (bytes_of_string "too late")].

Definition reported_42 : Shadow := bytes_of_string "{state:{reported:{value:42}}}".

(** The claim's reading of the cleanup of a correlated request: once the
    call has returned, neither outcome topic is routed. *)
Definition no_subscription_survives (t : Thing) : Prop :=
  forall w v,
    (GetThingShadow t w).1 = Returns v ->
    routes (GetThingShadow t w).2
      !! ("$aws/things/" +:+ thingName t +:+ "/shadow/get/accepted") = None /\
    routes (GetThingShadow t w).2
      !! ("$aws/things/" +:+ thingName t +:+ "/shadow/get/rejected") = None.

(** The shadow arrives, and the client then fails the unsubscribe. *)
Definition failed_unsubscribe : World :=
  fresh_world [None; None; None; Some "not connected"]
    [Deliver "$aws/things/test/shadow/get/accepted" reported_42].

(** The claim's reading of an unsubscribed sink: whatever the session did
    since the subscription, a receive on its channel stays parked. *)
Definition receive_stays_parked (t : Thing) (w : World) : Prop :=
  forall topic c w1 ops w3,
    SubscribeForCustomTopic t topic w = (Returns (Some c, None), w1) ->
    UnsubscribeFromCustomTopic t topic (run_ops t ops w1) = (Returns None, w3) ->
    (await [c] w3 (arrivals w3)).1 = Blocks.

(** A message on the custom topic arrives while a [GetThingShadow] waits and
    nobody receives from the custom topic's channel; the topic is
    unsubscribed after that. *)
Definition fancy_arrives : World :=
  fresh_world [] [Deliver "$aws/things/test/fancy" (bytes_of_string "hello")].

Definition fancy_unsubscribed : World :=
  (UnsubscribeFromCustomTopic test_thing "fancy"
     (run_ops test_thing [OpGetThingShadow]
        (SubscribeForCustomTopic test_thing "fancy" fancy_arrives).2)).2.

(** The claim's reading of a handler: its hand-off never blocks. *)
Definition handlers_never_block : Prop :=
  forall w receivers topic payload h,
    deliver w receivers topic payload <> CallbackBlocks h.

(** The certificate files are missing, the CA bundle is there, and the
    broker accepts the connection. *)
Definition host_without_key_pair : Host :=
  {| LoadX509KeyPair := fun _ _ =>
       (zero_Certificate, Some "open ./certificates/cert.pem: no such file or directory");
     ReadFile := fun _ => (bytes_of_string "-----BEGIN CERTIFICATE-----", None);
     Connect := fun _ => None |}.

Definition test_key_pair : KeyPair :=
  {| PrivateKeyPath := "./certificates/private.key";
     CertificatePath := "./certificates/cert.pem";
     CACertificatePath := "./certificates/root.ca.pem" |}.

Definition test_service : credentials.Service :=
  {| credentials.url :=
       "https://example.credentials.iot.us-east-1.amazonaws.com/role-aliases/device/credentials";
     credentials.thingName := "test";
     credentials.tlsCert := bytes_of_string "device certificate" |}.

(** A provider that answers every request with [status] and [body]; the
    decoder's verdict on that body is [decoded]. *)
Definition host_answering (status : Z) (body : string)
    (decoded : credentials.Output + error) : credentials.Host :=
  {| credentials.LoadX509KeyPair := fun _ _ => (bytes_of_string "device certificate", None);
     credentials.ParseURL := fun _ => None;
     credentials.Do := fun _ _ =>
       inl {| credentials.StatusCode := status;
              credentials.Body := {| credentials.content := bytes_of_string body;
                                     credentials.read_err := None |} |};
     credentials.Decode := fun _ => decoded |}.

Definition not_json_response : credentials.http_Response :=
  {| credentials.StatusCode := 200;
     credentials.Body := {| credentials.content := bytes_of_string "not json";
                            credentials.read_err := None |} |}.

Definition not_json_host : credentials.Host :=
  host_answering 200 "not json"
    (inr "invalid character 'o' in literal null (expecting 'u')").

(** * Proofs *)

(** ** Frame properties of the primitives *)

Lemma close_chan_frame id w :
  routes (close_chan id w) = routes w /\ log (close_chan id w) = log w /\
  acks (close_chan id w) = acks w /\ next_chan (close_chan id w) = next_chan w.
Proof. unfold close_chan. case_decide; auto. Qed.

Lemma stalled_frame receivers h payload evs : forall queued w,
  let w' := (stalled receivers h payload queued w evs).2 in
  routes w' = routes w /\ log w' = log w /\ acks w' = acks w /\
  next_chan w' = next_chan w.
Proof.
  induction evs as [|ev evs IH]; intros queued w; cbn [stalled]; [cbn; auto|].
  destruct ev as [topic p|id|h' p]; try apply IH.
  destruct (close_chan_frame id w) as (H1 & H2 & H3 & H4).
  cbn zeta. case_decide; [cbn; auto|].
  destruct (find _ receivers); [cbn; auto|].
  destruct (IH queued (close_chan id w)) as (G1 & G2 & G3 & G4).
  rewrite G1, G2, G3, G4. auto.
Qed.

Lemma dispatch_frame receivers h payload w evs :
  let w' := (dispatch receivers h payload w evs).2 in
  routes w' = routes w /\ log w' = log w /\ acks w' = acks w /\
  next_chan w' = next_chan w.
Proof.
  unfold dispatch.
  destruct (run_handler _ receivers h payload); cbn; auto.
  apply stalled_frame.
Qed.

Lemma await_frame receivers evs : forall w,
  let w' := (await receivers w evs).2 in
  routes w' = routes w /\ log w' = log w /\ acks w' = acks w /\
  next_chan w' = next_chan w.
Proof.
  induction evs as [|ev evs IH]; intros w; cbn [await].
  - destruct (find _ receivers); cbn; auto.
  - destruct (find _ receivers); [cbn; auto|].
    destruct ev as [topic payload|id|h payload].
    + destruct (deliver w receivers topic payload);
        first [apply IH|apply stalled_frame|cbn; by auto].
    + destruct (IH (close_chan id w)) as (H1 & H2 & H3 & H4).
      cbn zeta. rewrite H1, H2, H3, H4. apply close_chan_frame.
    + apply dispatch_frame.
Qed.

Lemma select2_frame a b w :
  let w' := (select2 a b w).2 in
  routes w' = routes w /\ log w' = log w /\ acks w' = acks w /\
  next_chan w' = next_chan w.
Proof.
  unfold select2.
  pose proof (await_frame [ChanShadow a; ChanError b] (arrivals w) w) as H.
  destruct (await _ w (arrivals w)) as [[[[]| |]|] w1]; exact H.
Qed.

(** ** Runs of a correlated request *)

Ltac run_session :=
  unfold GetThingShadow, DeleteThingShadow, unsubscribe, defer, mbind, Go_bind,
    mret, Go_ret, make_chan, Subscribe, Publish, Unsubscribe, next_ack;
  cbn -[await select2 insert delete String.append].

Lemma GetThingShadow_run t w :
  correlated_run ("$aws/things/" +:+ thingName t +:+ "/shadow/get/accepted")
                 ("$aws/things/" +:+ thingName t +:+ "/shadow/get/rejected")
                 ("$aws/things/" +:+ thingName t +:+ "/shadow/get")
                 get_fail get_resolve (GetThingShadow t w) w.
Proof.
  destruct w as [r l a n c evs]. unfold correlated_run, ack_at.
  destruct a as [|[e1|] [|[e2|] [|[e3|] a]]]; cbn [acks lookup list_lookup default];
    unfold cleaned, at_exit, sub_accepted, sub_rejected, pub_trigger; run_session;
    rewrite <- ?app_assoc, ?drop_0; cbn [app]; try reflexivity.
  all: try (destruct a as [|[?|] ?]; reflexivity).
  all: match goal with |- context [select2 ?a ?b ?w] =>
      destruct (select2 a b w) as [[[s [|]|err [|]]|] w4] end;
    try reflexivity; cbn; destruct (acks w4) as [|[?|] ?]; reflexivity.
Qed.

Lemma DeleteThingShadow_run t w :
  correlated_run ("$aws/things/" +:+ thingName t +:+ "/shadow/delete/accepted")
                 ("$aws/things/" +:+ thingName t +:+ "/shadow/delete/rejected")
                 ("$aws/things/" +:+ thingName t +:+ "/shadow/delete")
                 Some delete_resolve (DeleteThingShadow t w) w.
Proof.
  destruct w as [r l a n c evs]. unfold correlated_run, ack_at.
  destruct a as [|[e1|] [|[e2|] [|[e3|] a]]]; cbn [acks lookup list_lookup default];
    unfold cleaned, at_exit, sub_accepted, sub_rejected, pub_trigger; run_session;
    rewrite <- ?app_assoc, ?drop_0; cbn [app]; try reflexivity.
  all: try (destruct a as [|[?|] ?]; reflexivity).
  all: match goal with |- context [select2 ?a ?b ?w] =>
      destruct (select2 a b w) as [[[s [|]|err [|]]|] w4] end;
    try reflexivity; cbn; destruct (acks w4) as [|[?|] ?]; reflexivity.
Qed.

Lemma cleaned_log acc rej w1 :
  log (cleaned acc rej w1) = log w1 ++ [ReqUnsubscribe [acc; rej]].
Proof. unfold cleaned, Unsubscribe. destruct (next_ack w1). reflexivity. Qed.

Lemma drop_log_app (l new : list Request) : drop (length l) (l ++ new) = new.
Proof. by rewrite drop_app_length. Qed.

Section AnatomyFacts.
Context {A : Type}.
Variables (acc rej trig : string) (fail : error -> A) (resolve : Selected -> A).
Variables (r : Outcome A * World) (w : World).
Hypothesis Hrun : correlated_run acc rej trig fail resolve r w.

Lemma correlated_run_log :
  exists new, log r.2 = log w ++ new /\
    match subscribe_failure w with
    | Some e => r.1 = Returns (fail e) /\ no_publish new
    | None => subscribes_then_publishes acc rej trig w new
    end.
Proof using Hrun.
  unfold correlated_run in Hrun. unfold subscribe_failure.
  destruct (ack_at 0 w) as [e0|].
  { subst r. eexists. split.
    - cbn [snd]. rewrite cleaned_log. cbn. rewrite <- app_assoc. reflexivity.
    - split; [reflexivity|]. repeat constructor. }
  destruct (ack_at 1 w) as [e1|].
  { subst r. eexists. split.
    - cbn [snd]. rewrite cleaned_log. cbn. rewrite <- app_assoc. reflexivity.
    - split; [reflexivity|]. repeat constructor. }
  destruct (ack_at 2 w) as [e2|].
  { subst r. eexists. split.
    - cbn [snd]. rewrite cleaned_log. cbn. rewrite <- app_assoc. reflexivity.
    - eexists. split; [reflexivity|]. repeat constructor. }
  pose proof (select2_frame (next_chan w) (S (next_chan w)) (at_exit acc rej trig 3 w))
    as (_ & Hlog & _).
  destruct (select2 _ _ _) as [[sel|] w4]; subst r; cbn [snd fst] in *.
  - eexists. split.
    + rewrite cleaned_log, Hlog. cbn. rewrite <- app_assoc. reflexivity.
    + eexists. split; [reflexivity|]. repeat constructor.
  - eexists. split.
    + rewrite Hlog. cbn. reflexivity.
    + eexists. split; [reflexivity|]. constructor.
Qed.

End AnatomyFacts.

(** C1. In [GetThingShadow] and in [DeleteThingShadow] the accepted and the
    rejected topic are subscribed, in that order, before the trigger is
    published; when either subscribe fails the call returns that failure and
    publishes nothing. *)
Theorem correlated_request_subscribes_before_publishing (t : Thing) (w : World) :
  (exists new,
     log (GetThingShadow t w).2 = log w ++ new /\
     match subscribe_failure w with
     | Some e =>
         (GetThingShadow t w).1 = Returns (nil_Shadow, Some e) /\ no_publish new
     | None =>
         subscribes_then_publishes
           ("$aws/things/" +:+ thingName t +:+ "/shadow/get/accepted")
           ("$aws/things/" +:+ thingName t +:+ "/shadow/get/rejected")
           ("$aws/things/" +:+ thingName t +:+ "/shadow/get") w new
     end) /\
  (exists new,
     log (DeleteThingShadow t w).2 = log w ++ new /\
     match subscribe_failure w with
     | Some e => (DeleteThingShadow t w).1 = Returns (Some e) /\ no_publish new
     | None =>
         subscribes_then_publishes
           ("$aws/things/" +:+ thingName t +:+ "/shadow/delete/accepted")
           ("$aws/things/" +:+ thingName t +:+ "/shadow/delete/rejected")
           ("$aws/things/" +:+ thingName t +:+ "/shadow/delete") w new
     end).
Proof.
  split.
  - exact (correlated_run_log _ _ _ _ _ _ _ (GetThingShadow_run t w)).
  - exact (correlated_run_log _ _ _ _ _ _ _ (DeleteThingShadow_run t w)).
Qed.

Lemma cleaned_routes acc rej w1 :
  ack_at 0 w1 = None ->
  routes (cleaned acc rej w1) !! acc = None /\
  routes (cleaned acc rej w1) !! rej = None.
Proof.
  unfold cleaned, Unsubscribe, next_ack, ack_at.
  destruct (acks w1) as [|[e|] rest]; cbn; try discriminate; intros _.
  all: rewrite !lookup_delete; split; repeat case_decide; congruence.
Qed.

Lemma ack_at_drop k i w l n c evs rt :
  ack_at i (MkWorld rt l (drop k (acks w)) n c evs) = ack_at (k + i) w.
Proof. unfold ack_at. cbn. by rewrite lookup_drop. Qed.

Section AnatomyCleanup.
Context {A : Type}.
Variables (acc rej trig : string) (fail : error -> A) (resolve : Selected -> A).
Variables (r : Outcome A * World) (w : World).
Hypothesis Hrun : correlated_run acc rej trig fail resolve r w.

Lemma correlated_run_cleanup :
  match r.1 with
  | Returns _ => unsubscribed_at_return acc rej w r.2
  | Blocks => requests_acknowledged w
  end.
Proof using Hrun.
  unfold correlated_run in Hrun.
  assert (Hexit : forall k, 1 <= k <= 3 ->
    unsubscribed_at_return acc rej w (cleaned acc rej (at_exit acc rej trig k w))).
  { intros k Hk.
    exists (take k [sub_accepted acc w; sub_rejected rej w; pub_trigger trig]).
    split; [|split].
    - rewrite cleaned_log. cbn [log at_exit]. by rewrite <- app_assoc.
    - apply Forall_take. repeat constructor.
    - intros Hack. apply cleaned_routes.
      unfold at_exit. rewrite ack_at_drop.
      rewrite length_take in Hack. cbn [length] in Hack.
      replace (k + 0) with (k `min` 3) by lia. exact Hack. }
  destruct (ack_at 0 w) as [e0|] eqn:H0; [subst r; apply Hexit; lia|].
  destruct (ack_at 1 w) as [e1|] eqn:H1; [subst r; apply Hexit; lia|].
  destruct (ack_at 2 w) as [e2|] eqn:H2; [subst r; apply Hexit; lia|].
  pose proof (select2_frame (next_chan w) (S (next_chan w)) (at_exit acc rej trig 3 w))
    as (Hroutes & Hlog & Hacks & _).
  destruct (select2 _ _ _) as [[sel|] w4]; subst r; cbn [snd fst] in *.
  - exists [sub_accepted acc w; sub_rejected rej w; pub_trigger trig].
    split; [|split].
    + rewrite cleaned_log, Hlog. cbn [log at_exit take]. by rewrite <- app_assoc.
    + repeat constructor.
    + intros Hack. apply cleaned_routes.
      unfold ack_at. rewrite Hacks. cbn [acks at_exit length] in *.
      rewrite lookup_drop. exact Hack.
  - done.
Qed.

End AnatomyCleanup.

(** C2 (as the code has it). Whenever [GetThingShadow] or
    [DeleteThingShadow] returns, whatever the exit (a result, a rejection, a
    failed subscribe or publish), its last request is the unsubscribe of its
    accepted and rejected topics, whose result the call drops; when the
    client has carried it out neither topic is routed any more. The call
    does not return only while it is parked in its [select]. *)
Theorem correlated_request_unsubscribes_on_every_exit (t : Thing) (w : World) :
  match (GetThingShadow t w).1 with
  | Returns _ =>
      unsubscribed_at_return
        ("$aws/things/" +:+ thingName t +:+ "/shadow/get/accepted")
        ("$aws/things/" +:+ thingName t +:+ "/shadow/get/rejected")
        w (GetThingShadow t w).2
  | Blocks => requests_acknowledged w
  end /\
  match (DeleteThingShadow t w).1 with
  | Returns _ =>
      unsubscribed_at_return
        ("$aws/things/" +:+ thingName t +:+ "/shadow/delete/accepted")
        ("$aws/things/" +:+ thingName t +:+ "/shadow/delete/rejected")
        w (DeleteThingShadow t w).2
  | Blocks => requests_acknowledged w
  end.
Proof.
  split.
  - exact (correlated_run_cleanup _ _ _ _ _ _ _ (GetThingShadow_run t w)).
  - exact (correlated_run_cleanup _ _ _ _ _ _ _ (DeleteThingShadow_run t w)).
Qed.

(** ** First-wins resolution *)

Lemma awaiting_close acc rej a b id w :
  awaiting acc rej a b w -> id <> a -> id <> b ->
  awaiting acc rej a b (close_chan id w).
Proof.
  intros [Hacc Hrej Hoth [Hoa Hob] Hmade Hab] Ha Hb.
  unfold close_chan. case_decide; constructor; cbn; try done.
  rewrite !not_elem_of_union, !not_elem_of_singleton. auto.
Qed.

Lemma closed_close_chan id w :
  id < next_chan w -> closed (close_chan id w) = {[id]} ∪ closed w.
Proof. intros H. unfold close_chan. by rewrite decide_True. Qed.

Lemma receivers_shadow a b : ChanShadow a ∈ [ChanShadow a; ChanError b].
Proof. left. Qed.

Lemma receivers_error a b : ChanError b ∈ [ChanShadow a; ChanError b].
Proof. right. left. Qed.

Lemma find_closed_none a b w :
  a ∉ closed w -> b ∉ closed w ->
  find (fun c => bool_decide (chan_id c ∈ closed w)) [ChanShadow a; ChanError b] = None.
Proof.
  intros Ha Hb. cbn [find chan_id].
  by rewrite (bool_decide_eq_false_2 _ Ha), (bool_decide_eq_false_2 _ Hb).
Qed.

Lemma await_closed_shadow a b w evs :
  a ∈ closed w ->
  (await [ChanShadow a; ChanError b] w evs).1 = Returns (WokeClosed (ChanShadow a)).
Proof.
  intros Ha. destruct evs; cbn [await find chan_id];
    rewrite (bool_decide_eq_true_2 _ Ha); reflexivity.
Qed.

Lemma await_closed_error a b w evs :
  a ∉ closed w -> b ∈ closed w ->
  (await [ChanShadow a; ChanError b] w evs).1 = Returns (WokeClosed (ChanError b)).
Proof.
  intros Ha Hb.
  destruct evs; cbn [await find chan_id];
    rewrite (bool_decide_eq_false_2 _ Ha), (bool_decide_eq_true_2 _ Hb); reflexivity.
Qed.

Lemma select2_wake a b w :
  (select2 a b w).1 = wake_selected (await [ChanShadow a; ChanError b] w (arrivals w)).1.
Proof.
  unfold select2. destruct (await _ w (arrivals w)) as [[[[]| |]|] w1]; reflexivity.
Qed.

Lemma await_first_concern acc rej a b routed evs : forall w o,
  awaiting acc rej a b w ->
  (forall topic, topic <> acc -> topic <> rej ->
     routed !! topic = None -> routes w !! topic = None) ->
  first_concern acc rej a b routed evs = Some o ->
  wake_selected (await [ChanShadow a; ChanError b] w evs).1 = first_wins acc a o.
Proof.
  induction evs as [|ev evs IH]; intros w o Hw Hrouted Ho.
  - destruct Hw as [_ _ _ [Ha Hb] _ _]. cbn [await].
    rewrite (find_closed_none a b w Ha Hb). injection Ho as <-. reflexivity.
  - pose proof Hw as [Hacc Hrej Hoth [Ha Hb] [Hma Hmb] Hab].
    cbn [await]. rewrite (find_closed_none a b w Ha Hb).
    cbn [first_concern] in Ho.
    destruct ev as [topic payload|id|h payload]; cbn [concerns] in Ho.
    + unfold deliver, run_handler, chan_send.
      destruct (decide (topic = acc)) as [->|Hna].
      { rewrite Hacc. cbn [target chan_id].
        rewrite bool_decide_eq_true_2 in Ho by done. injection Ho as <-.
        rewrite decide_False by done. rewrite decide_True by apply receivers_shadow.
        cbn. rewrite decide_True by done. reflexivity. }
      rewrite (bool_decide_eq_false_2 _ Hna) in Ho. cbn [orb] in Ho.
      destruct (decide (topic = rej)) as [->|Hnr].
      { rewrite Hrej. cbn [target chan_id].
        rewrite bool_decide_eq_true_2 in Ho by done. injection Ho as <-.
        rewrite decide_False by done. rewrite decide_True by apply receivers_error.
        cbn. rewrite decide_False by done. reflexivity. }
      rewrite (bool_decide_eq_false_2 _ Hnr) in Ho.
      destruct (routed !! topic) as [h|] eqn:Hh; [discriminate Ho|].
      rewrite (Hrouted topic Hna Hnr Hh). by apply IH.
    + destruct (decide (id = a)) as [->|Hna].
      { rewrite bool_decide_eq_true_2 in Ho by done. injection Ho as <-.
        cbn [first_wins]. rewrite decide_True by done.
        rewrite await_closed_shadow; [reflexivity|].
        rewrite closed_close_chan by done.
        apply elem_of_union_l, elem_of_singleton. reflexivity. }
      rewrite (bool_decide_eq_false_2 _ Hna) in Ho. cbn [orb] in Ho.
      destruct (decide (id = b)) as [->|Hnb].
      { rewrite bool_decide_eq_true_2 in Ho by done. injection Ho as <-.
        cbn [first_wins]. rewrite decide_False by done.
        rewrite await_closed_error; [reflexivity| |].
        all: rewrite closed_close_chan by done.
        - rewrite not_elem_of_union, not_elem_of_singleton. auto.
        - apply elem_of_union_l, elem_of_singleton. reflexivity. }
      rewrite (bool_decide_eq_false_2 _ Hnb) in Ho.
      apply IH; [by apply awaiting_close| |exact Ho].
      intros topic H1 H2 H3. destruct (close_chan_frame id w) as [-> _]. auto.
    + discriminate Ho.
Qed.

Lemma wf_awaiting acc rej trig w :
  wf w -> acc <> rej ->
  awaiting acc rej (next_chan w) (S (next_chan w)) (at_exit acc rej trig 3 w).
Proof.
  intros [Hroutes Hclosed] Hne. constructor; cbn.
  - rewrite lookup_insert_ne by done. apply lookup_insert_eq.
  - apply lookup_insert_eq.
  - intros topic h Hh Ha Hr.
    rewrite !lookup_insert_ne in Hh by done.
    apply Hroutes in Hh. lia.
  - split; intros H; apply Hclosed in H; lia.
  - lia.
  - lia.
Qed.

Section AnatomyResolution.
Context {A : Type}.
Variables (acc rej trig : string) (fail : error -> A) (resolve : Selected -> A).
Variables (r : Outcome A * World) (w : World).
Hypothesis Hrun : correlated_run acc rej trig fail resolve r w.

Lemma correlated_run_select :
  requests_acknowledged w ->
  r.1 = resolution resolve
          (wake_selected
             (await [ChanShadow (next_chan w); ChanError (S (next_chan w))]
                (at_exit acc rej trig 3 w) (arrivals w)).1).
Proof using Hrun.
  intros (H0 & H1 & H2). unfold correlated_run in Hrun.
  rewrite H0, H1, H2 in Hrun.
  pose proof (select2_wake (next_chan w) (S (next_chan w)) (at_exit acc rej trig 3 w))
    as Hsel.
  cbn [arrivals at_exit] in Hsel. rewrite <- Hsel.
  destruct (select2 _ _ _) as [[sel|] w4]; subst r; reflexivity.
Qed.

Lemma correlated_run_resolution o :
  wf w -> acc <> rej -> requests_acknowledged w ->
  first_concern acc rej (next_chan w) (S (next_chan w)) (routes w) (arrivals w)
    = Some o ->
  r.1 = resolution resolve (first_wins acc (next_chan w) o).
Proof using Hrun.
  intros Hwf Hne Hack Ho. rewrite (correlated_run_select Hack).
  rewrite (await_first_concern acc rej _ _ (routes w) _ _ o); try done.
  - by apply wf_awaiting.
  - intros topic Ha Hr H. cbn [routes at_exit]. by rewrite !lookup_insert_ne.
Qed.

End AnatomyResolution.

Lemma get_topics_distinct name :
  "$aws/things/" +:+ name +:+ "/shadow/get/accepted"
  <> "$aws/things/" +:+ name +:+ "/shadow/get/rejected".
Proof. intros H. do 2 apply (inj (String.append _)) in H. discriminate. Qed.

Lemma delete_topics_distinct name :
  "$aws/things/" +:+ name +:+ "/shadow/delete/accepted"
  <> "$aws/things/" +:+ name +:+ "/shadow/delete/rejected".
Proof. intros H. do 2 apply (inj (String.append _)) in H. discriminate. Qed.

(** C3. A correlated request that has published its trigger resolves with
    what its two sinks yield first: a payload on the accepted sink is the
    result ([GetThingShadow] returns it, [DeleteThingShadow] returns no
    error); what the rejected sink yields is the error, the payload taken as
    raw bytes; a sink that is closed gives the error of its closed-channel
    branch; and while neither yields the call stays parked. In terms of the
    arrivals: when the client's dispatch gets to the first arrival that
    concerns the two sinks, that arrival decides, and with no such arrival
    the call stays parked. *)
Theorem correlated_request_first_wins (t : Thing) (w : World) :
  wf w -> requests_acknowledged w ->
  let a := next_chan w in
  let sinks := [ChanShadow a; ChanError (S a)] in
  let get_accepted := "$aws/things/" +:+ thingName t +:+ "/shadow/get/accepted" in
  let get_rejected := "$aws/things/" +:+ thingName t +:+ "/shadow/get/rejected" in
  let delete_accepted := "$aws/things/" +:+ thingName t +:+ "/shadow/delete/accepted" in
  let delete_rejected := "$aws/things/" +:+ thingName t +:+ "/shadow/delete/rejected" in
  ((GetThingShadow t w).1 =
     match (await sinks
              (at_exit get_accepted get_rejected
                 ("$aws/things/" +:+ thingName t +:+ "/shadow/get") 3 w)
              (arrivals w)).1 with
     | Returns (WokeShadow _ s) => Returns (s, None)
     | Returns (WokeError _ e) => Returns (nil_Shadow, Some e)
     | Returns (WokeClosed (ChanShadow _)) =>
         Returns (nil_Shadow, Some (errors_New "failed to read from shadow channel"))
     | Returns (WokeClosed (ChanError _)) =>
         Returns (nil_Shadow, Some (errors_New "failed to read from error channel"))
     | Blocks => Blocks
     end) /\
  ((DeleteThingShadow t w).1 =
     match (await sinks
              (at_exit delete_accepted delete_rejected
                 ("$aws/things/" +:+ thingName t +:+ "/shadow/delete") 3 w)
              (arrivals w)).1 with
     | Returns (WokeShadow _ _) => Returns None
     | Returns (WokeError _ e) => Returns (Some e)
     | Returns (WokeClosed (ChanShadow _)) =>
         Returns (Some (errors_New "failed to read from shadow channel"))
     | Returns (WokeClosed (ChanError _)) =>
         Returns (Some (errors_New "failed to read from error channel"))
     | Blocks => Blocks
     end) /\
  (forall o,
     first_concern get_accepted get_rejected a (S a) (routes w) (arrivals w) = Some o ->
     (GetThingShadow t w).1 =
       match o with
       | Some (Deliver topic payload) =>
           if decide (topic = get_accepted)
           then Returns (payload, None)
           else Returns (nil_Shadow, Some (errors_New (string_of_bytes payload)))
       | Some (Close id) =>
           if decide (id = a)
           then Returns (nil_Shadow, Some (errors_New "failed to read from shadow channel"))
           else Returns (nil_Shadow, Some (errors_New "failed to read from error channel"))
       | _ => Blocks
       end) /\
  (forall o,
     first_concern delete_accepted delete_rejected a (S a) (routes w) (arrivals w)
       = Some o ->
     (DeleteThingShadow t w).1 =
       match o with
       | Some (Deliver topic payload) =>
           if decide (topic = delete_accepted)
           then Returns None
           else Returns (Some (errors_New (string_of_bytes payload)))
       | Some (Close id) =>
           if decide (id = a)
           then Returns (Some (errors_New "failed to read from shadow channel"))
           else Returns (Some (errors_New "failed to read from error channel"))
       | _ => Blocks
       end).
Proof.
  intros Hwf Hparked a sinks get_accepted get_rejected delete_accepted delete_rejected.
  split; [|split; [|split]].
  - rewrite (correlated_run_select _ _ _ _ _ _ _ (GetThingShadow_run t w) Hparked).
    fold a get_accepted get_rejected sinks.
    destruct (await sinks _ (arrivals w)) as [[[[]| |]|] w1]; reflexivity.
  - rewrite (correlated_run_select _ _ _ _ _ _ _ (DeleteThingShadow_run t w) Hparked).
    fold a delete_accepted delete_rejected sinks.
    destruct (await sinks _ (arrivals w)) as [[[[]| |]|] w1]; reflexivity.
  - intros o Ho.
    rewrite (correlated_run_resolution _ _ _ _ _ _ _ (GetThingShadow_run t w) o Hwf
               (get_topics_distinct _) Hparked Ho).
    fold a get_accepted. destruct o as [[topic payload|id|h payload]|]; cbn;
      try case_decide; reflexivity.
  - intros o Ho.
    rewrite (correlated_run_resolution _ _ _ _ _ _ _ (DeleteThingShadow_run t w) o Hwf
               (delete_topics_distinct _) Hparked Ho).
    fold a delete_accepted. destruct o as [[topic payload|id|h payload]|]; cbn;
      try case_decide; reflexivity.
Qed.

(** ** Durable subscriptions *)

Ltac run_durable :=
  unfold SubscribeForThingShadowChanges, SubscribeForCustomTopic,
    UnsubscribeFromCustomTopic, PublishToCustomTopic, UpdateThingShadow,
    UpdateThingShadowDocument, unsubscribe, mbind, Go_bind, mret, Go_ret,
    make_chan, Subscribe, Publish, Unsubscribe, next_ack;
  cbn -[insert delete String.append Join].

(** C9. When the subscribe to update/accepted succeeds and the subscribe to
    update/rejected fails, [SubscribeForThingShadowChanges] returns the error
    with both channels nil, asks for no unsubscribe, and leaves the
    update/accepted route in place. *)
Theorem shadow_changes_partial_subscription_stays (t : Thing) (w : World) (e : error) :
  ack_at 0 w = None -> ack_at 1 w = Some e ->
  let accepted := "$aws/things/" +:+ thingName t +:+ "/shadow/update/accepted" in
  let rejected := "$aws/things/" +:+ thingName t +:+ "/shadow/update/rejected" in
  let r := SubscribeForThingShadowChanges t w in
  r.1 = Returns (None, None, Some e) /\
  log r.2 = log w ++ [ReqSubscribe accepted 0 (SendPayload (next_chan w));
                      ReqSubscribe rejected 0 (SendPayload (S (next_chan w)))] /\
  routes r.2 = <[accepted := SendPayload (next_chan w)]> (routes w) /\
  routes r.2 !! accepted = Some (SendPayload (next_chan w)).
Proof.
  intros H0 H1 accepted rejected r. subst r accepted rejected.
  destruct w as [rt l a n c evs]. unfold ack_at in H0, H1. cbn [acks] in H0, H1.
  destruct a as [|[e0|] [|[e1|] a]]; cbn in H0, H1; try discriminate.
  injection H1 as ->. run_durable.
  rewrite <- app_assoc. cbn [app].
  repeat split. apply lookup_insert_eq.
Qed.

Lemma update_topics_distinct name :
  "$aws/things/" +:+ name +:+ "/shadow/update/accepted"
  <> "$aws/things/" +:+ name +:+ "/shadow/update/rejected".
Proof. intros H. do 2 apply (inj (String.append _)) in H. discriminate. Qed.

(** A successful [SubscribeForThingShadowChanges] returns the two fresh
    channels and routes both update outcome topics to them. *)
Lemma shadow_changes_subscribed t w c c' w1 :
  SubscribeForThingShadowChanges t w = (Returns (Some c, Some c', None), w1) ->
  c = ChanShadow (next_chan w) /\ c' = ChanShadow (S (next_chan w)) /\
  routes w1 =
    <["$aws/things/" +:+ thingName t +:+ "/shadow/update/rejected"
        := SendPayload (S (next_chan w))]>
      (<["$aws/things/" +:+ thingName t +:+ "/shadow/update/accepted"
          := SendPayload (next_chan w)]> (routes w)) /\
  closed w1 = closed w /\ next_chan w1 = S (S (next_chan w)).
Proof.
  destruct w as [rt l a n c0 evs].
  destruct a as [|[e0|] [|[e1|] a]]; run_durable; intros H; try discriminate.
  all: injection H as <- <- <-; cbn; auto.
Qed.

Lemma publish_frame topic qos retained payload w :
  let r := Publish topic qos retained payload w in
  r.1 = Returns (ack_at 0 w) /\
  log r.2 = log w ++ [ReqPublish topic qos retained payload] /\
  routes r.2 = routes w /\ closed r.2 = closed w /\
  next_chan r.2 = next_chan w /\ arrivals r.2 = arrivals w /\
  acks r.2 = drop 1 (acks w).
Proof.
  unfold Publish, next_ack, ack_at. destruct (acks w) as [|a rest]; cbn; auto 10.
Qed.

(** C6. [UpdateThingShadow p] hands exactly [p] to the client as one publish
    on the update topic and returns that publish's acknowledgement, waiting
    for no arrival; and what the update/accepted sink of a shadow-changes
    subscription receives is byte for byte what the broker sent there, so the
    broker's echo of [p] arrives as [p]. *)
Theorem update_shadow_payload_round_trip (t : Thing) (w : World) (p : Shadow) :
  wf w ->
  let update := "$aws/things/" +:+ thingName t +:+ "/shadow/update" in
  let accepted := "$aws/things/" +:+ thingName t +:+ "/shadow/update/accepted" in
  (let r := UpdateThingShadow t p w in
   r.1 = Returns (ack_at 0 w) /\
   log r.2 = log w ++ [ReqPublish update 0 false p] /\
   routes r.2 = routes w /\ arrivals r.2 = arrivals w) /\
  (forall c c' w1 q evs,
     SubscribeForThingShadowChanges t w = (Returns (Some c, Some c', None), w1) ->
     (await [c] (UpdateThingShadow t p w1).2 (Deliver accepted q :: evs)).1
     = Returns (WokeShadow (chan_id c) q)).
Proof.
  intros [Hroutes Hclosed] update accepted. split.
  - pose proof (publish_frame update 0 false p w) as H. cbn zeta in H.
    unfold UpdateThingShadow. fold update. tauto.
  - intros c c' w1 q evs Hsub.
    apply shadow_changes_subscribed in Hsub as (-> & -> & Hrt & Hcl & Hn).
    pose proof (publish_frame update 0 false p w1) as (_ & _ & Hrt2 & Hcl2 & _).
    unfold UpdateThingShadow. fold update.
    set (w2 := (Publish update 0 false p w1).2) in *.
    assert (Hopen : next_chan w ∉ closed w2).
    { rewrite Hcl2, Hcl. intros H. apply Hclosed in H. lia. }
    cbn [await find chan_id].
    rewrite (bool_decide_eq_false_2 _ Hopen).
    unfold deliver. rewrite Hrt2, Hrt.
    rewrite lookup_insert_ne by (symmetry; apply update_topics_distinct).
    fold accepted. rewrite lookup_insert_eq.
    unfold run_handler, chan_send. cbn [target chan_id].
    rewrite decide_False by done. rewrite decide_True by left. reflexivity.
Qed.

(** A successful [SubscribeForCustomTopic] returns the fresh channel and
    routes the derived topic to it. *)
Lemma custom_topic_subscribed t topic w c w1 :
  SubscribeForCustomTopic t topic w = (Returns (Some c, None), w1) ->
  c = ChanShadow (next_chan w) /\
  routes w1 = <[Join ["$aws/things"; thingName t; topic] := SendPayload (next_chan w)]>
                (routes w) /\
  closed w1 = closed w /\ next_chan w1 = S (next_chan w).
Proof.
  destruct w as [rt l a n c0 evs].
  destruct a as [|[e0|] a]; run_durable; intros H; try discriminate.
  all: injection H as <- <-; cbn; auto.
Qed.

Lemma run_handler_open cl receivers h payload :
  chan_id (target h) ∉ cl ->
  run_handler cl receivers h payload =
    if decide (target h ∈ receivers) then handed h payload else CallbackBlocks h.
Proof.
  intros Hopen. unfold run_handler, chan_send.
  rewrite decide_False by done. case_decide; reflexivity.
Qed.

(** C7 (as the code has it). A message handler of the session is one send on
    an unbuffered channel: on an open sink it completes, handing the payload
    over, exactly when a receiver is parked on that sink, and it blocks the
    dispatching context otherwise. This holds for the handlers routed by
    [SubscribeForCustomTopic] and by [SubscribeForThingShadowChanges]. *)
Theorem message_handlers_block_until_received (t : Thing) (w : World) :
  wf w ->
  (forall cl receivers h payload,
     chan_id (target h) ∉ cl ->
     run_handler cl receivers h payload =
       if decide (target h ∈ receivers) then handed h payload else CallbackBlocks h) /\
  (forall topic c w1 receivers payload,
     SubscribeForCustomTopic t topic w = (Returns (Some c, None), w1) ->
     deliver w1 receivers (Join ["$aws/things"; thingName t; topic]) payload =
       if decide (c ∈ receivers) then HandedShadow (chan_id c) payload
       else CallbackBlocks (SendPayload (chan_id c))) /\
  (forall c c' w1 receivers payload,
     SubscribeForThingShadowChanges t w = (Returns (Some c, Some c', None), w1) ->
     deliver w1 receivers
       ("$aws/things/" +:+ thingName t +:+ "/shadow/update/accepted") payload =
       (if decide (c ∈ receivers) then HandedShadow (chan_id c) payload
        else CallbackBlocks (SendPayload (chan_id c))) /\
     deliver w1 receivers
       ("$aws/things/" +:+ thingName t +:+ "/shadow/update/rejected") payload =
       (if decide (c' ∈ receivers) then HandedShadow (chan_id c') payload
        else CallbackBlocks (SendPayload (chan_id c')))).
Proof.
  intros [Hroutes Hclosed].
  assert (Hfresh : forall k, next_chan w + k ∉ closed w).
  { intros k H. apply Hclosed in H. lia. }
  split; [|split].
  - intros. by apply run_handler_open.
  - intros topic c w1 receivers payload Hsub.
    apply custom_topic_subscribed in Hsub as (-> & Hrt & Hcl & _).
    unfold deliver. rewrite Hrt, lookup_insert_eq, Hcl.
    rewrite run_handler_open; [reflexivity|].
    cbn. specialize (Hfresh 0). by rewrite Nat.add_0_r in Hfresh.
  - intros c c' w1 receivers payload Hsub.
    apply shadow_changes_subscribed in Hsub as (-> & -> & Hrt & Hcl & _).
    unfold deliver. rewrite Hrt, Hcl. split.
    + rewrite lookup_insert_ne by (symmetry; apply update_topics_distinct).
      rewrite lookup_insert_eq.
      rewrite run_handler_open; [reflexivity|].
      cbn. specialize (Hfresh 0). by rewrite Nat.add_0_r in Hfresh.
    + rewrite lookup_insert_eq.
      rewrite run_handler_open; [reflexivity|].
      cbn. specialize (Hfresh 1). by rewrite Nat.add_1_r in Hfresh.
Qed.

(** ** Sinks are never closed by the session *)

Lemma extends_refl w : extends w w.
Proof. constructor; auto. Qed.

Lemma extends_trans w1 w2 w3 : extends w1 w2 -> extends w2 w3 -> extends w1 w3.
Proof.
  intros [Hc1 Hr1 Hcl1 Ha1] [Hc2 Hr2 Hcl2 Ha2]. constructor.
  - lia.
  - intros topic h H. apply Hr2 in H as [H|H]; [auto|right; lia].
  - intros id H. apply Hcl2 in H as [H|H]; auto.
  - auto.
Qed.

Lemma set_arrivals_extends evs w :
  (forall id, Close id ∈ evs -> Close id ∈ arrivals w) ->
  extends w (set_arrivals evs w).
Proof. intros H. constructor; cbn; auto. Qed.

Lemma close_chan_extends id w :
  Close id ∈ arrivals w -> extends w (close_chan id w).
Proof.
  intros Hin. unfold close_chan. case_decide; [|apply extends_refl].
  constructor; cbn; auto.
  intros id' [->%elem_of_singleton|H']%elem_of_union; auto.
Qed.

Lemma arrivals_close_chan id w : arrivals (close_chan id w) = arrivals w.
Proof. unfold close_chan. case_decide; reflexivity. Qed.

Lemma stalled_extends receivers h payload evs : forall queued w,
  (forall id, Close id ∈ queued ++ evs -> Close id ∈ arrivals w) ->
  extends w (stalled receivers h payload queued w evs).2.
Proof.
  induction evs as [|ev evs IH]; intros queued w Hin; cbn [stalled].
  { apply set_arrivals_extends. intros id [H|H]%elem_of_cons; [discriminate H|].
    apply Hin. by rewrite app_nil_r. }
  assert (Hkept : forall id, Close id ∈ Parked h payload :: queued ++ evs ->
                             Close id ∈ arrivals w).
  { intros id [H|H]%elem_of_cons; [discriminate H|].
    apply Hin. apply elem_of_app in H as [H|H]; apply elem_of_app; auto.
    right. by right. }
  destruct ev as [topic p|id|h' p].
  - apply IH. intros id H. apply Hin. by rewrite <- app_assoc in H.
  - assert (Hid : Close id ∈ arrivals w).
    { apply Hin. apply elem_of_app. right. left. }
    pose proof (close_chan_extends id w Hid) as Hext.
    assert (Hset : extends w (set_arrivals (Parked h payload :: queued ++ evs)
                                (close_chan id w))).
    { eapply extends_trans; [exact Hext|]. apply set_arrivals_extends.
      rewrite arrivals_close_chan. exact Hkept. }
    cbn zeta. case_decide; [exact Hset|].
    destruct (find _ receivers); [exact Hset|].
    eapply extends_trans; [exact Hext|]. apply IH.
    rewrite arrivals_close_chan. intros id' H'. apply Hin.
    apply elem_of_app in H' as [H'|H']; apply elem_of_app; auto. right. by right.
  - apply IH. intros id H. apply Hin. by rewrite <- app_assoc in H.
Qed.

Lemma await_extends receivers evs : forall w,
  (forall id, Close id ∈ evs -> Close id ∈ arrivals w) ->
  extends w (await receivers w evs).2.
Proof.
  induction evs as [|ev evs IH]; intros w Hin; cbn [await].
  - destruct (find _ receivers); apply set_arrivals_extends; auto.
  - assert (Hrest : forall id, Close id ∈ evs -> Close id ∈ arrivals w).
    { intros id H. apply Hin. by right. }
    assert (Hkept : forall h p id, Close id ∈ Parked h p :: evs ->
                                   Close id ∈ arrivals w).
    { intros h p id [H|H]%elem_of_cons; [discriminate H|auto]. }
    destruct (find _ receivers); [by apply set_arrivals_extends|].
    destruct ev as [topic payload|id|h payload].
    + destruct (deliver w receivers topic payload); cbn [snd].
      * by apply IH.
      * by apply set_arrivals_extends.
      * by apply set_arrivals_extends.
      * by apply stalled_extends.
      * apply set_arrivals_extends. apply Hkept.
    + assert (Hid : Close id ∈ arrivals w) by (apply Hin; left).
      eapply extends_trans; [exact (close_chan_extends id w Hid)|].
      apply IH. by rewrite arrivals_close_chan.
    + unfold dispatch. destruct (run_handler _ receivers h payload); cbn [snd];
        first [by apply stalled_extends | by apply set_arrivals_extends
              | apply set_arrivals_extends; apply Hkept].
Qed.

Lemma select2_extends a b w : extends w (select2 a b w).2.
Proof.
  unfold select2.
  pose proof (await_extends [ChanShadow a; ChanError b] (arrivals w) w
                (fun _ H => H)) as H.
  destruct (await _ w (arrivals w)) as [[[[]| |]|] w1]; exact H.
Qed.

Lemma routes_insert_cases (r : gmap string MessageHandler) topic0 h0 topic h :
  <[topic0 := h0]> r !! topic = Some h -> h = h0 \/ r !! topic = Some h.
Proof. intros [[_ <-]|[_ H]]%lookup_insert_Some; auto. Qed.

Lemma drop_routes_lookup topics (r : gmap string MessageHandler) topic h :
  drop_routes topics r !! topic = Some h -> r !! topic = Some h.
Proof.
  induction topics as [|tp topics IH]; cbn; [done|].
  intros [_ H]%lookup_delete_Some. auto.
Qed.

Lemma drop_routes_gone topics (r : gmap string MessageHandler) topic :
  topic ∈ topics -> drop_routes topics r !! topic = None.
Proof.
  induction topics as [|tp topics IH]; cbn; [by intros ?%elem_of_nil|].
  intros [->|H]%elem_of_cons; [apply lookup_delete_eq|].
  rewrite lookup_delete. case_decide; auto.
Qed.

Lemma Unsubscribe_extends topics w : extends w (Unsubscribe topics w).2.
Proof.
  unfold Unsubscribe, next_ack.
  destruct (acks w) as [|[e|] rest]; constructor; cbn; auto.
  all: intros topic h H; left; by apply drop_routes_lookup in H.
Qed.

Lemma Publish_extends topic qos retained payload w :
  extends w (Publish topic qos retained payload w).2.
Proof.
  unfold Publish, next_ack. destruct (acks w) as [|a rest]; constructor; cbn; auto.
Qed.

Lemma at_exit_extends acc rej trig k w : extends w (at_exit acc rej trig k w).
Proof.
  constructor; cbn; auto.
  intros topic h H. destruct k as [|[|[|k]]]; auto.
  - apply routes_insert_cases in H as [->|H]; auto.
  - apply routes_insert_cases in H as [->|H]; [cbn; auto|].
    apply routes_insert_cases in H as [->|H]; auto.
Qed.

Lemma correlated_run_extends {A} acc rej trig (fail : error -> A) resolve r w :
  correlated_run acc rej trig fail resolve r w -> extends w r.2.
Proof.
  unfold correlated_run. intros Hrun.
  assert (Hexit : forall k, extends w (cleaned acc rej (at_exit acc rej trig k w))).
  { intros k. eapply extends_trans; [apply at_exit_extends|apply Unsubscribe_extends]. }
  destruct (ack_at 0 w); [subst r; apply Hexit|].
  destruct (ack_at 1 w); [subst r; apply Hexit|].
  destruct (ack_at 2 w); [subst r; apply Hexit|].
  pose proof (select2_extends (next_chan w) (S (next_chan w)) (at_exit acc rej trig 3 w))
    as Hsel.
  destruct (select2 _ _ _) as [[sel|] w4]; subst r; cbn [snd] in *.
  - eapply extends_trans; [apply at_exit_extends|].
    eapply extends_trans; [exact Hsel|apply Unsubscribe_extends].
  - eapply extends_trans; [apply at_exit_extends|exact Hsel].
Qed.

Lemma step_extends t w op : extends w (step t w op).
Proof.
  destruct op; cbn [step].
  - constructor; cbn; auto.
  - exact (correlated_run_extends _ _ _ _ _ _ _ (GetThingShadow_run t w)).
  - apply Publish_extends.
  - destruct w as [rt l a n c evs].
    destruct a as [|[e0|] [|[e1|] a]]; run_durable; constructor; cbn; auto.
    all: intros topic h H; repeat (apply routes_insert_cases in H as [->|H]); cbn; auto.
  - apply Publish_extends.
  - exact (correlated_run_extends _ _ _ _ _ _ _ (DeleteThingShadow_run t w)).
  - apply Publish_extends.
  - destruct w as [rt l a n c evs].
    destruct a as [|[e0|] a]; run_durable; constructor; cbn; auto.
    all: intros topic' h H; repeat (apply routes_insert_cases in H as [->|H]); cbn; auto.
  - apply Unsubscribe_extends.
Qed.

Lemma run_ops_extends t ops : forall w, extends w (run_ops t ops w).
Proof.
  induction ops as [|op ops IH]; intros w; cbn; [apply extends_refl|].
  eapply extends_trans; [apply step_extends|apply IH].
Qed.

Lemma find_none_intro {X} (f : X -> bool) (l : list X) :
  (forall x, x ∈ l -> f x = false) -> find f l = None.
Proof.
  induction l as [|x l IH]; intros H; cbn; [done|].
  rewrite (H x) by left. apply IH. intros y Hy. apply H. by right.
Qed.

Lemma receivers_stay_open (receivers : list chan) id (evs : list Arrival) w :
  (forall c, c ∈ receivers ->
     (chan_id c ∉ closed w) /\ (Close (chan_id c) ∉ Close id :: evs)) ->
  forall c, c ∈ receivers ->
    (chan_id c ∉ closed (close_chan id w)) /\ (Close (chan_id c) ∉ evs).
Proof.
  intros Hopen c Hc. destruct (Hopen c Hc) as [Hcl Hn]. split.
  - unfold close_chan. case_decide; [cbn|done].
    rewrite not_elem_of_union, not_elem_of_singleton. split; [|done].
    intros Heq. apply Hn. rewrite Heq. left.
  - intros ?; apply Hn. by right.
Qed.

Lemma find_open_none (receivers : list chan) (evs : list Arrival) w :
  (forall c, c ∈ receivers -> (chan_id c ∉ closed w) /\ (Close (chan_id c) ∉ evs)) ->
  find (fun c => bool_decide (chan_id c ∈ closed w)) receivers = None.
Proof.
  intros Hopen. apply find_none_intro. intros c Hc.
  apply bool_decide_eq_false_2, Hopen, Hc.
Qed.

(** While the dispatch is parked elsewhere, receivers whose channels nobody
    closes stay parked. *)
Lemma stalled_silent (receivers : list chan) h payload evs : forall queued w,
  (forall c, c ∈ receivers -> (chan_id c ∉ closed w) /\ (Close (chan_id c) ∉ evs)) ->
  (stalled receivers h payload queued w evs).1 = Blocks.
Proof.
  induction evs as [|ev evs IH]; intros queued w Hopen; cbn [stalled]; [done|].
  assert (Hrest : forall c, c ∈ receivers ->
            (chan_id c ∉ closed w) /\ (Close (chan_id c) ∉ evs)).
  { intros c Hc. destruct (Hopen c Hc) as [? Hn]. split; [done|].
    intros ?; apply Hn. by right. }
  destruct ev as [topic p|id|h' p]; [by apply IH| |by apply IH].
  cbn zeta. case_decide; [done|].
  pose proof (receivers_stay_open receivers id evs w Hopen) as Hopen'.
  rewrite (find_open_none receivers evs _ Hopen'). by apply IH.
Qed.

(** No handler sends on any of [receivers], routed or parked, none of them
    is closed and none gets closed: a receive on them never returns. *)
Lemma await_silent receivers evs : forall w,
  (forall topic h, routes w !! topic = Some h -> target h ∉ receivers) ->
  (forall c, c ∈ receivers -> (chan_id c ∉ closed w) /\ (Close (chan_id c) ∉ evs)) ->
  (forall h p, Parked h p ∈ evs -> target h ∉ receivers) ->
  (await receivers w evs).1 = Blocks.
Proof.
  induction evs as [|ev evs IH]; intros w Hroutes Hopen Hparked; cbn [await].
  all: rewrite (find_open_none receivers _ w Hopen).
  { reflexivity. }
  assert (Hrest : forall c, c ∈ receivers ->
            (chan_id c ∉ closed w) /\ (Close (chan_id c) ∉ evs)).
  { intros c Hc. destruct (Hopen c Hc) as [? Hn]. split; [done|].
    intros ?; apply Hn. by right. }
  assert (Hparked' : forall h p, Parked h p ∈ evs -> target h ∉ receivers).
  { intros h p H. apply (Hparked h p). by right. }
  destruct ev as [topic payload|id|h payload].
  - unfold deliver, run_handler, chan_send.
    destruct (routes w !! topic) as [h|] eqn:Hh; [|by apply IH].
    case_decide; [done|]. rewrite decide_False by eauto.
    by apply stalled_silent.
  - apply IH; [|by apply receivers_stay_open|done].
    destruct (close_chan_frame id w) as [-> _]. done.
  - unfold dispatch, run_handler, chan_send.
    case_decide; [done|].
    rewrite decide_False by (apply (Hparked h payload); left).
    by apply stalled_silent.
Qed.

Lemma stalled_never_closed (receivers : list chan) h payload evs c' : forall queued w,
  (forall c, c ∈ receivers -> (chan_id c ∉ closed w) /\ (Close (chan_id c) ∉ evs)) ->
  (stalled receivers h payload queued w evs).1 <> Returns (WokeClosed c').
Proof.
  intros queued w Hopen. by rewrite stalled_silent.
Qed.

(** Receivers whose channels nobody closes never see end-of-stream. *)
Lemma await_never_closed (receivers : list chan) evs c' : forall w,
  (forall c, c ∈ receivers -> (chan_id c ∉ closed w) /\ (Close (chan_id c) ∉ evs)) ->
  (await receivers w evs).1 <> Returns (WokeClosed c').
Proof.
  induction evs as [|ev evs IH]; intros w Hopen; cbn [await].
  all: rewrite (find_open_none receivers _ w Hopen).
  { done. }
  assert (Hrest : forall c, c ∈ receivers ->
            (chan_id c ∉ closed w) /\ (Close (chan_id c) ∉ evs)).
  { intros c Hc. destruct (Hopen c Hc) as [? Hn]. split; [done|].
    intros ?; apply Hn. by right. }
  destruct ev as [topic payload|id|h payload].
  - destruct (deliver w receivers topic payload); cbn [fst]; try done.
    + by apply IH.
    + by apply stalled_never_closed.
  - apply IH. by apply receivers_stay_open.
  - unfold dispatch. destruct (run_handler _ receivers h payload); cbn [fst]; try done.
    by apply stalled_never_closed.
Qed.

Lemma unsubscribe_acknowledged topics w w3 :
  Unsubscribe topics w = (Returns None, w3) ->
  routes w3 = drop_routes topics (routes w) /\ closed w3 = closed w.
Proof.
  unfold Unsubscribe, next_ack.
  destruct (acks w) as [|[e|] rest]; intros H; try discriminate.
  all: injection H as <-; auto.
Qed.

Lemma suffix_elem_of {X} (l k : list X) x : l `suffix_of` k -> x ∈ l -> x ∈ k.
Proof. intros [pre ->] H. apply elem_of_app. auto. Qed.

(** C10 (as the code has it). No method of the session closes a channel:
    through any sequence of calls a channel is closed only if an arrival
    closed it. The channels of [GetThingShadow] and [DeleteThingShadow] are
    therefore still open after their unsubscribe, and the channel returned
    by [SubscribeForCustomTopic] is still open after
    [UnsubscribeFromCustomTopic], when no route sends on it any more: a
    receive on it never sees end-of-stream. It is handed the message of a
    handler that was already parked in its send on that channel, and unless
    there is such a handler it stays parked. *)
Theorem session_never_closes_a_sink (t : Thing) (w : World) :
  wf w ->
  (forall ops id,
     id ∈ closed (run_ops t ops w) -> id ∈ closed w \/ Close id ∈ arrivals w) /\
  (forall id,
     next_chan w <= id -> Close id ∉ arrivals w ->
     (id ∉ closed (GetThingShadow t w).2) /\ (id ∉ closed (DeleteThingShadow t w).2)) /\
  (forall topic c w1 ops w3 evs,
     SubscribeForCustomTopic t topic w = (Returns (Some c, None), w1) ->
     UnsubscribeFromCustomTopic t topic (run_ops t ops w1) = (Returns None, w3) ->
     Close (chan_id c) ∉ arrivals w -> Close (chan_id c) ∉ evs ->
     (chan_id c ∉ closed w3) /\
     (forall c', (await [c] w3 evs).1 <> Returns (WokeClosed c')) /\
     ((forall h p, Parked h p ∈ evs -> target h <> c) ->
      (await [c] w3 evs).1 = Blocks) /\
     (forall p,
        (await [c] w3 (Parked (SendPayload (chan_id c)) p :: evs)).1
        = Returns (WokeShadow (chan_id c) p))).
Proof.
  intros [Hroutes Hclosed]. split; [|split].
  - intros ops id. apply (ext_closed _ _ (run_ops_extends t ops w)).
  - intros id Hid Hnot.
    split; intros H.
    + apply (ext_closed _ _ (step_extends t w OpGetThingShadow)) in H as [H|H];
        [apply Hclosed in H; lia|done].
    + apply (ext_closed _ _ (step_extends t w OpDeleteThingShadow)) in H as [H|H];
        [apply Hclosed in H; lia|done].
  - intros topic c w1 ops w3 evs Hsub Hunsub Hnot Hevs.
    pose proof (step_extends t w (OpSubscribeForCustomTopic topic)) as Hext0.
    cbn [step] in Hext0. rewrite Hsub in Hext0. cbn [snd] in Hext0.
    apply custom_topic_subscribed in Hsub as (-> & Hrt & Hcl & Hn).
    cbn [chan_id] in *.
    set (n := next_chan w) in *.
    set (tp := Join ["$aws/things"; thingName t; topic]) in *.
    pose proof (run_ops_extends t ops w1) as Hext.
    set (w2 := run_ops t ops w1) in *.
    unfold UnsubscribeFromCustomTopic, unsubscribe in Hunsub. fold tp in Hunsub.
    apply unsubscribe_acknowledged in Hunsub as [Hrt3 Hcl3].
    assert (Hopen : n ∉ closed w3).
    { rewrite Hcl3. intros H. apply (ext_closed _ _ Hext) in H as [H|H].
      - rewrite Hcl in H. apply Hclosed in H. lia.
      - apply Hnot. by apply (ext_arrivals _ _ Hext0). }
    assert (Hquiet : forall c, c ∈ [ChanShadow n] ->
              (chan_id c ∉ closed w3) /\ (Close (chan_id c) ∉ evs)).
    { intros c Hc. apply list_elem_of_singleton in Hc as ->. done. }
    split; [done|]. split; [|split].
    + intros c'. by apply await_never_closed.
    + intros Hparked. apply await_silent; [|done|].
      * intros topic' h Hh Hin. apply list_elem_of_singleton in Hin.
        rewrite Hrt3 in Hh. cbn in Hh. apply lookup_delete_Some in Hh as [Hne Hh].
        apply (ext_routes _ _ Hext) in Hh as [Hh|Hh].
        -- rewrite Hrt in Hh. apply lookup_insert_Some in Hh as [[? _]|[_ Hh]]; [done|].
           apply Hroutes in Hh. rewrite Hin in Hh. cbn in Hh. lia.
        -- rewrite Hin, Hn in Hh. cbn in Hh. lia.
      * intros h p Hin Hc%list_elem_of_singleton. by apply (Hparked h p).
    + intros p. cbn [await find chan_id].
      rewrite (bool_decide_eq_false_2 _ Hopen).
      unfold dispatch, run_handler, chan_send. cbn [target chan_id].
      rewrite decide_False by done. rewrite decide_True by left. reflexivity.
Qed.

(** ** Topic names *)

(** *** Splitting and joining *)

Lemma split_slash_cons s : exists e es, split_slash s = e :: es.
Proof.
  destruct s as [|c s]; cbn; [eauto|].
  case_decide; [eauto|]. destruct (split_slash s); eauto.
Qed.

Lemma split_slash_app s1 s2 :
  split_slash (s1 +:+ "/" +:+ s2) = split_slash s1 ++ split_slash s2.
Proof.
  induction s1 as [|c s1 IH]; cbn -[String.append].
  - reflexivity.
  - change (String c s1 +:+ "/" +:+ s2) with (String c (s1 +:+ "/" +:+ s2)).
    cbn [split_slash]. rewrite IH.
    case_decide; [reflexivity|].
    destruct (split_slash_cons s1) as (e & es & ->). reflexivity.
Qed.

Lemma clean_elems_plain rooted es : forall out,
  ".." ∉ es ->
  clean_elems rooted out es = rev out ++ filter plain es.
Proof.
  induction es as [|e es IH]; intros out Hdd; cbn [clean_elems].
  - rewrite filter_nil. by rewrite app_nil_r.
  - apply not_elem_of_cons in Hdd as [Hne Hdd].
    rewrite filter_cons. unfold plain at 2.
    destruct (decide (e = "")) as [->|H1].
    { rewrite decide_False by (intros []; done). by apply IH. }
    destruct (decide (e = ".")) as [->|H2].
    { rewrite decide_False by (intros []; done). by apply IH. }
    rewrite decide_False by done. rewrite decide_True by done.
    rewrite IH by done. cbn [rev]. by rewrite <- app_assoc.
Qed.

Lemma join_slash_cons e es :
  join_slash (e :: es) = match es with [] => e | _ => e +:+ "/" +:+ join_slash es end.
Proof. reflexivity. Qed.

Lemma string_app_assoc (s1 s2 s3 : string) :
  (s1 +:+ s2) +:+ s3 = s1 +:+ (s2 +:+ s3).
Proof.
  induction s1 as [|c s1 IH]; [reflexivity|].
  change (String c ((s1 +:+ s2) +:+ s3) = String c (s1 +:+ (s2 +:+ s3))).
  by rewrite IH.
Qed.

Lemma join_slash_app es1 es2 :
  es1 <> [] -> es2 <> [] ->
  join_slash (es1 ++ es2) = join_slash es1 +:+ "/" +:+ join_slash es2.
Proof.
  intros H1 H2. induction es1 as [|e es1 IH]; [done|].
  destruct es1 as [|e' es1].
  - cbn [app]. rewrite join_slash_cons. destruct es2; [done|]. reflexivity.
  - change (e +:+ "/" +:+ join_slash ((e' :: es1) ++ es2)
            = (e +:+ "/" +:+ join_slash (e' :: es1)) +:+ "/" +:+ join_slash es2).
    rewrite IH by done. by rewrite !string_app_assoc.
Qed.

Lemma join_split_slash s : join_slash (split_slash s) = s.
Proof.
  induction s as [|c s IH]; cbn [split_slash]; [reflexivity|].
  case_decide as Hc.
  - subst c. destruct (split_slash_cons s) as (e & es & He).
    rewrite join_slash_cons, He, <- He, IH. reflexivity.
  - destruct (split_slash_cons s) as (e & es & He). rewrite He in *.
    rewrite join_slash_cons in *. destruct es; subst s; reflexivity.
Qed.

Lemma split_prefix : split_slash "$aws/things" = ["$aws"; "things"].
Proof. reflexivity. Qed.

Lemma join_slash_dollar es : join_slash ("$aws" :: es) <> "".
Proof. rewrite join_slash_cons. destruct es; discriminate. Qed.

(** [path.Join("$aws/things", name, suffix)] when no element is [..]: the
    elements that are neither empty nor [.], after the two of the prefix. *)
Lemma Join_custom name suffix :
  ".." ∉ split_slash name -> ".." ∉ split_slash suffix ->
  Join ["$aws/things"; name; suffix]
  = join_slash ("$aws" :: "things"
                :: filter plain (split_slash name ++ split_slash suffix)).
Proof.
  intros Hn Hs. unfold Join. cbn [foldl].
  rewrite (decide_True (P := "" = "")) by done.
  rewrite (decide_False (P := "$aws/things" = "")) by done.
  rewrite (decide_False (P := "$aws/things" +:+ "/" +:+ name = "")) by done.
  rewrite decide_False by done.
  unfold Clean. rewrite decide_False by done.
  replace (is_rooted _) with false by reflexivity. cbv zeta.
  rewrite !split_slash_app, split_prefix.
  rewrite clean_elems_plain.
  2:{ rewrite !not_elem_of_app. repeat split; try done.
      rewrite !not_elem_of_cons. repeat split; try done. apply not_elem_of_nil. }
  cbn [rev app].
  rewrite !(filter_cons_True plain) by (split; discriminate).
  rewrite decide_False by apply join_slash_dollar.
  reflexivity.
Qed.

Lemma filter_all {X} (P : X -> Prop) `{forall x, Decision (P x)} (l : list X) :
  Forall P l -> filter P l = l.
Proof.
  induction 1 as [|x l Hx Hl IH]; [reflexivity|].
  rewrite filter_cons_True by done. by rewrite IH.
Qed.

(** When moreover every element is plain, nothing is dropped. *)
Lemma Join_custom_plain name suffix :
  Forall plain (split_slash name) -> Forall plain (split_slash suffix) ->
  ".." ∉ split_slash name -> ".." ∉ split_slash suffix ->
  Join ["$aws/things"; name; suffix] = "$aws/things/" +:+ name +:+ "/" +:+ suffix.
Proof.
  intros Pn Ps Hn Hs. rewrite Join_custom by done.
  rewrite filter_app.
  rewrite !filter_all by done.
  destruct (split_slash_cons name) as (e1 & es1 & E1).
  destruct (split_slash_cons suffix) as (e2 & es2 & E2).
  change ("$aws" :: "things" :: split_slash name ++ split_slash suffix)
    with (["$aws"; "things"] ++ (split_slash name ++ split_slash suffix)).
  rewrite join_slash_app; [|done|by rewrite E1].
  rewrite join_slash_app by (by rewrite ?E1, ?E2).
  rewrite !join_split_slash. reflexivity.
Qed.

(** An element without separator splits into itself. *)
Lemma split_slash_elements s : Forall (fun e => split_slash e = [e]) (split_slash s).
Proof.
  induction s as [|c s IH]; cbn [split_slash].
  - constructor; [reflexivity|constructor].
  - case_decide as Hc.
    + constructor; [reflexivity|exact IH].
    + destruct (split_slash s) as [|e es] eqn:He.
      * constructor; [|constructor]. cbn. by rewrite decide_False.
      * apply Forall_cons in IH as [IHe IHes]. constructor; [|exact IHes].
        cbn [split_slash]. rewrite decide_False by done. by rewrite IHe.
Qed.

Lemma split_join_slash es :
  es <> [] -> Forall (fun e => split_slash e = [e]) es ->
  split_slash (join_slash es) = es.
Proof.
  intros Hne H. induction H as [|e es He Hes IH]; [done|].
  rewrite join_slash_cons. destruct es as [|e' es]; [exact He|].
  rewrite split_slash_app, He, IH by done. reflexivity.
Qed.

Lemma clean_elems_written rooted es : forall out,
  Forall written out -> Forall (fun e => split_slash e = [e]) es ->
  Forall written (clean_elems rooted out es).
Proof.
  induction es as [|e es IH]; intros out Hout Hes; cbn [clean_elems].
  - by apply Forall_rev.
  - apply Forall_cons in Hes as [He Hes].
    destruct (decide (e = "")); [by apply IH|].
    destruct (decide (e = ".")); [by apply IH|].
    assert (written e) by done.
    destruct (decide (e = "..")).
    + destruct out as [|top out].
      * destruct rooted; apply IH; auto.
      * apply Forall_cons in Hout as [Htop Hout].
        destruct (decide (top = "..")); apply IH; auto.
    + apply IH; auto.
Qed.

Lemma join_slash_written es : es <> [] -> Forall written es -> join_slash es <> "".
Proof.
  intros Hne H. destruct H as [|e es [He _] _]; [done|].
  rewrite join_slash_cons. destruct e; [done|]. destruct es; discriminate.
Qed.

Lemma Join_custom_no_empty_element name suffix :
  "" ∉ split_slash (Join ["$aws/things"; name; suffix]).
Proof.
  unfold Join. cbn [foldl].
  rewrite (decide_True (P := "" = "")) by done.
  rewrite (decide_False (P := "$aws/things" = "")) by done.
  rewrite (decide_False (P := "$aws/things" +:+ "/" +:+ name = "")) by done.
  rewrite decide_False by done.
  unfold Clean. rewrite decide_False by done.
  replace (is_rooted _) with false by reflexivity. cbv zeta.
  match goal with |- context [clean_elems false [] ?es] =>
    pose proof (clean_elems_written false es [] (List.Forall_nil _)
                  (split_slash_elements _)) as Hw;
    set (cleaned_es := clean_elems false [] es) in * end.
  destruct cleaned_es as [|e out] eqn:Hout.
  - cbn. intros [H|H]%elem_of_cons; [discriminate|by apply elem_of_nil in H].
  - rewrite decide_False by (by apply join_slash_written).
    rewrite split_join_slash; [|done|by eapply Forall_impl; [exact Hw|intros ? []]].
    intros Hin. rewrite Forall_forall in Hw. by destruct (Hw _ Hin).
Qed.

Lemma shadow_topic_intro name suffix :
  suffix ∈ shadow_suffixes -> is_shadow_topic name (shadow_topic name suffix).
Proof. intros H. exists suffix. auto. Qed.

Ltac shadow_topic :=
  first [ apply (shadow_topic_intro _ "get")
        | apply (shadow_topic_intro _ "get/accepted")
        | apply (shadow_topic_intro _ "get/rejected")
        | apply (shadow_topic_intro _ "update")
        | apply (shadow_topic_intro _ "update/accepted")
        | apply (shadow_topic_intro _ "update/rejected")
        | apply (shadow_topic_intro _ "update/documents")
        | apply (shadow_topic_intro _ "delete")
        | apply (shadow_topic_intro _ "delete/accepted")
        | apply (shadow_topic_intro _ "delete/rejected") ];
  unfold shadow_suffixes; rewrite !elem_of_cons; auto 20.

(** Everything a correlated request asks of the client. *)
Lemma correlated_run_requests {A} acc rej trig (fail : error -> A) resolve r w :
  correlated_run acc rej trig fail resolve r w ->
  exists new, log r.2 = log w ++ new /\ new <> [] /\
    forall x, x ∈ new ->
      x ∈ [sub_accepted acc w; sub_rejected rej w; pub_trigger trig;
           ReqUnsubscribe [acc; rej]].
Proof.
  unfold correlated_run. intros Hrun.
  assert (Hexit : forall k, 1 <= k ->
    exists new, log (cleaned acc rej (at_exit acc rej trig k w)) = log w ++ new /\
      new <> [] /\
      forall x, x ∈ new ->
        x ∈ [sub_accepted acc w; sub_rejected rej w; pub_trigger trig;
             ReqUnsubscribe [acc; rej]]).
  { intros k Hk. eexists. split; [|split].
    - rewrite cleaned_log. cbn [log at_exit]. rewrite <- app_assoc. reflexivity.
    - destruct k as [|k]; [lia|]. discriminate.
    - intros x [Hx|Hx]%elem_of_app.
      + destruct k as [|[|[|k]]]; [lia|..]; cbn [take firstn] in Hx;
          rewrite ?firstn_nil, ?take_nil in Hx;
          rewrite ?elem_of_cons in *; tauto.
      + apply list_elem_of_singleton in Hx as ->. rewrite !elem_of_cons. auto. }
  destruct (ack_at 0 w); [subst r; apply Hexit; lia|].
  destruct (ack_at 1 w); [subst r; apply Hexit; lia|].
  destruct (ack_at 2 w); [subst r; apply Hexit; lia|].
  pose proof (select2_frame (next_chan w) (S (next_chan w)) (at_exit acc rej trig 3 w))
    as (_ & Hlog & _).
  destruct (select2 _ _ _) as [[sel|] w4]; subst r; cbn [snd] in *.
  - eexists. split; [|split].
    + rewrite cleaned_log, Hlog. cbn [log at_exit take]. rewrite <- app_assoc.
      reflexivity.
    + discriminate.
    + intros x. cbn [app]. auto.
  - eexists. split; [|split].
    + rewrite Hlog. cbn [log at_exit take]. reflexivity.
    + discriminate.
    + intros x. rewrite !elem_of_cons. tauto.
Qed.

Lemma requests_of_log t w op new :
  log (step t w op) = log w ++ new -> requests_of t w op = new.
Proof. intros H. unfold requests_of. rewrite H. apply drop_log_app. Qed.

Lemma Publish_requests t w op topic qos retained payload :
  step t w op = (Publish topic qos retained payload w).2 ->
  requests_of t w op = [ReqPublish topic qos retained payload].
Proof.
  intros H. apply requests_of_log. rewrite H.
  unfold Publish. destruct (next_ack w). reflexivity.
Qed.

(** The requests of every method, by case. *)
Lemma requests_of_cases t w op :
  requests_of t w op <> [] /\
  (is_shadow_op op = true ->
   forall r topic, r ∈ requests_of t w op -> topic ∈ request_topics r ->
                   is_shadow_topic (thingName t) topic) /\
  (forall suffix, custom_suffix op = Some suffix ->
   forall r topic, r ∈ requests_of t w op -> topic ∈ request_topics r ->
                   topic = Join ["$aws/things"; thingName t; suffix]).
Proof.
  destruct op; cbn [is_shadow_op custom_suffix].
  - (* Disconnect *)
    rewrite (requests_of_log t w OpDisconnect [ReqDisconnect 1]) by reflexivity.
    repeat split; discriminate.
  - (* GetThingShadow *)
    destruct (correlated_run_requests _ _ _ _ _ _ _ (GetThingShadow_run t w))
      as (new & Hlog & Hne & Hnew).
    rewrite (requests_of_log t w OpGetThingShadow new) by exact Hlog.
    split; [done|]. split; [|discriminate].
    intros _ r topic Hr Htopic. apply Hnew in Hr.
    rewrite !elem_of_cons, elem_of_nil in Hr.
    destruct Hr as [->|[->|[->|[->|[]]]]]; cbn in Htopic;
      rewrite ?elem_of_cons, ?elem_of_nil in Htopic;
      repeat destruct Htopic as [->|Htopic]; try done; shadow_topic.
  - (* UpdateThingShadow *)
    rewrite (Publish_requests t w (OpUpdateThingShadow payload) _ 0 false payload
               eq_refl).
    split; [done|]. split; [|discriminate].
    intros _ r topic ->%list_elem_of_singleton ->%list_elem_of_singleton. shadow_topic.
  - (* SubscribeForThingShadowChanges *)
    split; [|split; [|discriminate]].
    + destruct w as [rt l a n c evs]. unfold requests_of.
      destruct a as [|[e0|] [|[e1|] a]]; cbn [step]; run_durable;
        rewrite <- ?app_assoc, drop_log_app; discriminate.
    + intros _ r topic Hr Htopic.
      destruct w as [rt l a n c evs]. unfold requests_of in Hr.
      destruct a as [|[e0|] [|[e1|] a]]; cbn [step] in Hr; revert Hr; run_durable;
        rewrite <- ?app_assoc, drop_log_app; cbn [app]; intros Hr;
        rewrite !elem_of_cons, elem_of_nil in Hr;
        repeat destruct Hr as [->|Hr]; try done;
        apply list_elem_of_singleton in Htopic as ->; shadow_topic.
  - (* UpdateThingShadowDocument *)
    rewrite (Publish_requests t w (OpUpdateThingShadowDocument payload) _ 0 false
               payload eq_refl).
    split; [done|]. split; [|discriminate].
    intros _ r topic ->%list_elem_of_singleton ->%list_elem_of_singleton. shadow_topic.
  - (* DeleteThingShadow *)
    destruct (correlated_run_requests _ _ _ _ _ _ _ (DeleteThingShadow_run t w))
      as (new & Hlog & Hne & Hnew).
    rewrite (requests_of_log t w OpDeleteThingShadow new) by exact Hlog.
    split; [done|]. split; [|discriminate].
    intros _ r topic Hr Htopic. apply Hnew in Hr.
    rewrite !elem_of_cons, elem_of_nil in Hr.
    destruct Hr as [->|[->|[->|[->|[]]]]]; cbn in Htopic;
      rewrite ?elem_of_cons, ?elem_of_nil in Htopic;
      repeat destruct Htopic as [->|Htopic]; try done; shadow_topic.
  - (* PublishToCustomTopic *)
    rewrite (Publish_requests t w (OpPublishToCustomTopic payload topic) _ 0 false
               payload eq_refl).
    split; [done|]. split; [discriminate|].
    intros suffix [= <-] r tp ->%list_elem_of_singleton ->%list_elem_of_singleton.
    reflexivity.
  - (* SubscribeForCustomTopic *)
    assert (Hreq : requests_of t w (OpSubscribeForCustomTopic topic)
                   = [ReqSubscribe (Join ["$aws/things"; thingName t; topic]) 0
                        (SendPayload (next_chan w))]).
    { destruct w as [rt l a n c evs]. unfold requests_of.
      destruct a as [|[e0|] a]; cbn [step]; run_durable; by rewrite drop_log_app. }
    rewrite Hreq. split; [done|]. split; [discriminate|].
    intros suffix [= <-] r tp ->%list_elem_of_singleton ->%list_elem_of_singleton.
    reflexivity.
  - (* UnsubscribeFromCustomTopic *)
    assert (Hreq : requests_of t w (OpUnsubscribeFromCustomTopic topic)
                   = [ReqUnsubscribe [Join ["$aws/things"; thingName t; topic]]]).
    { apply requests_of_log. cbn [step].
      unfold UnsubscribeFromCustomTopic, unsubscribe, Unsubscribe.
      destruct (next_ack w). reflexivity. }
    rewrite Hreq. split; [done|]. split; [discriminate|].
    intros suffix [= <-] r tp ->%list_elem_of_singleton ->%list_elem_of_singleton.
    reflexivity.
Qed.

(** C5 (as the code has it). Every shadow method addresses the client with
    topics of the form [$aws/things/<thing>/shadow/<suffix>], the suffix one
    of the ten of the closed set. Every custom-topic method uses
    [path.Join("$aws/things", thing, suffix)], which never has an empty
    element: no duplicate, leading or trailing separator. When no element of
    the thing name or of the suffix is [..], it is [$aws/things] followed by
    their elements that are neither empty nor [.], each after a single [/];
    when all their elements are plain it is [$aws/things/<thing>/<suffix>]
    itself. *)
Theorem topics_are_derived_from_the_thing_name (t : Thing) (w : World) (op : SessionOp) :
  requests_of t w op <> [] /\
  (is_shadow_op op = true ->
   forall r topic, r ∈ requests_of t w op -> topic ∈ request_topics r ->
                   is_shadow_topic (thingName t) topic) /\
  (forall suffix, custom_suffix op = Some suffix ->
     (forall r topic, r ∈ requests_of t w op -> topic ∈ request_topics r ->
                      topic = Join ["$aws/things"; thingName t; suffix]) /\
     ("" ∉ split_slash (Join ["$aws/things"; thingName t; suffix])) /\
     (".." ∉ split_slash (thingName t) -> ".." ∉ split_slash suffix ->
      Join ["$aws/things"; thingName t; suffix]
      = join_slash ("$aws" :: "things"
                    :: filter plain (split_slash (thingName t) ++ split_slash suffix))) /\
     (Forall plain (split_slash (thingName t)) -> Forall plain (split_slash suffix) ->
      ".." ∉ split_slash (thingName t) -> ".." ∉ split_slash suffix ->
      Join ["$aws/things"; thingName t; suffix]
      = "$aws/things/" +:+ thingName t +:+ "/" +:+ suffix)).
Proof.
  destruct (requests_of_cases t w op) as (Hne & Hshadow & Hcustom).
  split; [exact Hne|]. split; [exact Hshadow|].
  intros suffix Hsuffix. split; [|split; [|split]].
  - by apply Hcustom.
  - apply Join_custom_no_empty_element.
  - apply Join_custom.
  - apply Join_custom_plain.
Qed.

(** C5, the claim as stated fails: a trailing separator and a [.] element of
    the suffix are removed, which squeezing duplicate separators does not do. *)
Lemma custom_topic_is_cleaned_not_squeezed :
  Join ["$aws/things"; "test"; "fancy/"] = "$aws/things/test/fancy" /\
  spec_custom_topic "test" "fancy/" = "$aws/things/test/fancy/" /\
  Join ["$aws/things"; "test"; "./fancy"] = "$aws/things/test/fancy" /\
  spec_custom_topic "test" "./fancy" = "$aws/things/test/./fancy" /\
  ~ (forall name suffix,
       Join ["$aws/things"; name; suffix] = spec_custom_topic name suffix).
Proof.
  repeat split; try reflexivity.
  intros H. specialize (H "test" "fancy/"). discriminate H.
Qed.

(** ** Session construction *)

(** What [NewThing] does, by the answers of its host. *)
Lemma NewThing_cases host keyPair awsEndpoint name :
  let loaded := LoadX509KeyPair host (CertificatePath keyPair) (PrivateKeyPath keyPair) in
  let read := ReadFile host (CACertificatePath keyPair) in
  let opts := client_options loaded.1 read.1 awsEndpoint name in
  NewThing host keyPair awsEndpoint name =
    match read.2 with
    | Some e => (None, Some e)
    | None =>
        match Connect host opts with
        | Some e => (None, Some e)
        | None => (Some {| client := opts; thingName := name |}, None)
        end
    end.
Proof.
  unfold NewThing, client_options.
  destruct (LoadX509KeyPair host _ _) as [tlsCert err].
  destruct (ReadFile host _) as [caPem [e|]]; reflexivity.
Qed.

(** A CA bundle that cannot be read and a failed connect are surfaced. *)
Lemma NewThing_surfaces_read_and_connect_errors host keyPair awsEndpoint name e :
  let loaded := LoadX509KeyPair host (CertificatePath keyPair) (PrivateKeyPath keyPair) in
  let read := ReadFile host (CACertificatePath keyPair) in
  (read.2 = Some e -> NewThing host keyPair awsEndpoint name = (None, Some e)) /\
  (read.2 = None ->
   Connect host (client_options loaded.1 read.1 awsEndpoint name) = Some e ->
   NewThing host keyPair awsEndpoint name = (None, Some e)).
Proof.
  intros loaded read. rewrite NewThing_cases. fold loaded read.
  split; [intros ->; reflexivity|]. intros -> ->. reflexivity.
Qed.

(** C4, where the code departs from it: the error of
    [tls.LoadX509KeyPair] is overwritten by the result of [ioutil.ReadFile]
    before it is looked at, so when the key pair fails to load while the CA
    bundle is read and the connect succeeds, [NewThing] returns a [Thing]
    and a nil error. *)
Theorem NewThing_loses_the_key_pair_error (host : Host) (keyPair : KeyPair)
    (awsEndpoint name : string) (e : error) :
  let loaded := LoadX509KeyPair host (CertificatePath keyPair) (PrivateKeyPath keyPair) in
  let read := ReadFile host (CACertificatePath keyPair) in
  let opts := client_options loaded.1 read.1 awsEndpoint name in
  loaded.2 = Some e -> read.2 = None -> Connect host opts = None ->
  NewThing host keyPair awsEndpoint name
  = (Some {| client := opts; thingName := name |}, None).
Proof.
  intros loaded read opts _ Hread Hconnect.
  rewrite NewThing_cases. fold loaded read opts.
  rewrite Hread, Hconnect. reflexivity.
Qed.

(** ** The credential exchange *)

Lemma contains_suffix pre s : contains (pre +:+ s) s = true.
Proof.
  assert (Hpre : String.prefix s s = true).
  { induction s as [|c s IH]; [reflexivity|].
    cbn. destruct (ascii_dec c c); [exact IH|done]. }
  induction pre as [|c pre IH].
  - change ("" +:+ s) with s.
    destruct s; cbn [contains]; rewrite Hpre; reflexivity.
  - change (String c pre +:+ s) with (String c (pre +:+ s)).
    cbn [contains]. rewrite IH. apply orb_true_r.
Qed.

(** C8 (as the code has it). Every exchange of [GetCredentials] is one GET
    of the configured URL, with the device certificate as TLS client
    certificate, the header [x-amzn-iot-thingname] set to the thing name and
    a timeout of ten seconds. On status 200 with a body that decodes, the
    decoded credentials are returned without error. On another status the
    error is made of the status code and the response body (of the read
    error, when the body cannot be read). On status 200 with a body that
    does not decode the error is made of the decoder's error. *)
Theorem GetCredentials_exchange (host : credentials.Host) (s : credentials.Service) :
  let r := credentials.GetCredentials host s in
  (forall x, x ∈ r.2 -> x = (credentials_client s, credentials_request s)) /\
  length r.2 <= 1 /\
  (credentials.ParseURL host (credentials.url s) = None ->
   r.2 = [(credentials_client s, credentials_request s)]) /\
  (forall resp,
     credentials.ParseURL host (credentials.url s) = None ->
     credentials.Do host (credentials_client s) (credentials_request s) = inl resp ->
     (forall out,
        credentials.StatusCode resp = 200%Z ->
        credentials.Decode host (credentials.Body resp) = inl out ->
        r.1 = (out, None)) /\
     (credentials.StatusCode resp <> 200%Z ->
      credentials.read_err (credentials.Body resp) = None ->
      r.1 = (credentials.zero_Output,
             Some ("the request has failed with the status code: "
                   +:+ pretty (credentials.StatusCode resp) +:+ "; message: "
                   +:+ string_of_bytes (credentials.content (credentials.Body resp))))
      /\ error_carries_body host s resp) /\
     (forall e,
        credentials.StatusCode resp <> 200%Z ->
        credentials.read_err (credentials.Body resp) = Some e ->
        r.1 = (credentials.zero_Output,
               Some ("failed to parse the response body: " +:+ e))) /\
     (forall e,
        credentials.StatusCode resp = 200%Z ->
        credentials.Decode host (credentials.Body resp) = inr e ->
        r.1 = (credentials.zero_Output,
               Some ("failed to parse credentials response body: " +:+ e)))).
Proof.
  intros r. subst r.
  unfold error_carries_body.
  unfold credentials.GetCredentials, credentials.http_NewRequest, credentials.Header_Add,
    credentials.ReadAll.
  change (time_Second * 10)%Z with (10 * time_Second)%Z.
  fold (credentials_client s).
  destruct (credentials.ParseURL host (credentials.url s)) as [e0|] eqn:Hurl.
  { cbn. repeat split; try discriminate; try lia. by intros x ?%elem_of_nil. }
  cbn [credentials.Method credentials.URL credentials.Header app].
  fold (credentials_request s).
  assert (Hone : forall (x : credentials.http_Client * credentials.http_Request),
            x ∈ [(credentials_client s, credentials_request s)] ->
            x = (credentials_client s, credentials_request s))
    by (by intros x ->%list_elem_of_singleton).
  destruct (credentials.Do host _ _) as [resp|e1] eqn:Hdo.
  2:{ cbn. repeat split; try done. }
  unfold credentials.http_StatusOK.
  destruct (decide (credentials.StatusCode resp <> 200%Z)) as [Hs|Hs].
  - destruct (credentials.read_err (credentials.Body resp)) as [e2|] eqn:Hread;
      cbn; (split; [exact Hone|]); (split; [lia|]); (split; [done|]);
      intros resp' _ [= <-]; repeat split; try done; try congruence.
    eexists. split; [reflexivity|].
    rewrite <- !string_app_assoc. apply contains_suffix.
  - apply dec_stable in Hs.
    destruct (credentials.Decode host (credentials.Body resp)) as [out|e3] eqn:Hdec;
      cbn; (split; [exact Hone|]); (split; [lia|]); (split; [done|]);
      intros resp' _ [= <-]; repeat split; try done; try congruence.
Qed.

(** ** Concrete sessions *)

Lemma fresh_world_wf answers evs : wf (fresh_world answers evs).
Proof.
  split; cbn.
  - intros topic h H. by rewrite lookup_empty in H.
  - intros id H. by apply not_elem_of_empty in H.
Qed.

Example get_shadow_rejected_log :
  log (GetThingShadow test_thing (fresh_world [] rejected_get_arrivals)).2 =
    [ReqSubscribe "$aws/things/test/shadow/get/accepted" 0 (SendPayload 0);
     ReqSubscribe "$aws/things/test/shadow/get/rejected" 0 (SendError 1);
     ReqPublish "$aws/things/test/shadow/get" 0 false (bytes_of_string "{}");
     ReqUnsubscribe ["$aws/things/test/shadow/get/accepted";
                     "$aws/things/test/shadow/get/rejected"]]
  /\ routes (GetThingShadow test_thing (fresh_world [] rejected_get_arrivals)).2 = ∅.
Proof. split; [reflexivity|]. apply map_eq. intros k. vm_compute. reflexivity. Qed.

Lemma correlated_request_first_wins_witness :
  wf (fresh_world [] rejected_get_arrivals) /\
  requests_acknowledged (fresh_world [] rejected_get_arrivals) /\
  (GetThingShadow test_thing (fresh_world [] rejected_get_arrivals)).1
    = Returns (nil_Shadow, Some "no shadow exists") /\
  (DeleteThingShadow test_thing (fresh_world [] rejected_get_arrivals)).1 = Blocks.
Proof.
  assert (Hparked : requests_acknowledged (fresh_world [] rejected_get_arrivals))
    by (repeat split).
  split; [apply fresh_world_wf|]. split; [exact Hparked|].
  destruct (correlated_request_first_wins test_thing
              (fresh_world [] rejected_get_arrivals) (fresh_world_wf _ _) Hparked)
    as (_ & _ & Hget & Hdelete).
  split.
  - exact (Hget (Some (Deliver "$aws/things/test/shadow/get/rejected"
                         (bytes_of_string "no shadow exists"))) eq_refl).
  - exact (Hdelete None eq_refl).
Defined.

(** C2, the claim as stated fails: the call drops the result of its deferred
    unsubscribe, so when the client fails that request the call returns the
    shadow all the same, with both outcome topics still routed. *)
Lemma failed_unsubscribe_leaves_the_subscriptions :
  (GetThingShadow test_thing failed_unsubscribe).1 = Returns (reported_42, None) /\
  last (log (GetThingShadow test_thing failed_unsubscribe).2)
    = Some (ReqUnsubscribe ["$aws/things/test/shadow/get/accepted";
                            "$aws/things/test/shadow/get/rejected"]) /\
  routes (GetThingShadow test_thing failed_unsubscribe).2
    !! "$aws/things/test/shadow/get/accepted" = Some (SendPayload 0) /\
  routes (GetThingShadow test_thing failed_unsubscribe).2
    !! "$aws/things/test/shadow/get/rejected" = Some (SendError 1) /\
  ~ no_subscription_survives test_thing.
Proof.
  assert (Hres : (GetThingShadow test_thing failed_unsubscribe).1
                 = Returns (reported_42, None)) by (vm_compute; reflexivity).
  assert (Hacc : routes (GetThingShadow test_thing failed_unsubscribe).2
                   !! "$aws/things/test/shadow/get/accepted" = Some (SendPayload 0))
    by (vm_compute; reflexivity).
  split; [exact Hres|]. split; [vm_compute; reflexivity|].
  split; [exact Hacc|]. split; [vm_compute; reflexivity|].
  intros Hnone. destruct (Hnone failed_unsubscribe _ Hres) as [Hgone _].
  change ("$aws/things/" +:+ thingName test_thing +:+ "/shadow/get/accepted")
    with "$aws/things/test/shadow/get/accepted" in Hgone.
  rewrite Hacc in Hgone. discriminate Hgone.
Qed.

(** The dispatch runs one handler at a time: a message for a channel nobody
    receives from parks it, and the answer to the get, which arrives behind
    it, is not dispatched. When a receiver takes the parked message the
    dispatch moves on, and the answer then reaches a get that waits for
    it. *)
Example get_hangs_behind_a_parked_handler :
  let hello := bytes_of_string "hello" in
  let w1 := (SubscribeForCustomTopic test_thing "fancy"
               (fresh_world []
                  [Deliver "$aws/things/test/fancy" hello;
                   Deliver "$aws/things/test/shadow/get/accepted" reported_42])).2 in
  let w2 := (GetThingShadow test_thing w1).2 in
  let w3 := (await [ChanShadow 0] w2 (arrivals w2)).2 in
  (GetThingShadow test_thing w1).1 = Blocks /\
  arrivals w2 = [Parked (SendPayload 0) hello;
                 Deliver "$aws/things/test/shadow/get/accepted" reported_42] /\
  (await [ChanShadow 0] w2 (arrivals w2)).1 = Returns (WokeShadow 0 hello) /\
  arrivals w3 = [Deliver "$aws/things/test/shadow/get/accepted" reported_42] /\
  (await [ChanShadow 1; ChanError 2] w3 (arrivals w3)).1
    = Returns (WokeShadow 1 reported_42).
Proof. vm_compute. repeat split. Qed.

(** While the dispatch is parked, only a close wakes a receiver on another
    channel, and what arrived meanwhile stays queued behind the parked
    handler. *)
Example close_wakes_a_receiver_behind_a_parked_handler :
  let hello := bytes_of_string "hello" in
  let w1 := (SubscribeForCustomTopic test_thing "fancy"
               (fresh_world []
                  [Deliver "$aws/things/test/fancy" hello;
                   Deliver "$aws/things/test/shadow/get/accepted" reported_42;
                   Close 1])).2 in
  (GetThingShadow test_thing w1).1
    = Returns (nil_Shadow, Some "failed to read from shadow channel") /\
  arrivals (GetThingShadow test_thing w1).2
    = [Parked (SendPayload 0) hello;
       Deliver "$aws/things/test/shadow/get/accepted" reported_42].
Proof. vm_compute. repeat split. Qed.

Lemma update_shadow_payload_round_trip_witness :
  wf (fresh_world [] []) /\
  log (UpdateThingShadow test_thing reported_42 (fresh_world [] [])).2
    = [ReqPublish "$aws/things/test/shadow/update" 0 false reported_42] /\
  (await [ChanShadow 0]
     (UpdateThingShadow test_thing reported_42
        (SubscribeForThingShadowChanges test_thing (fresh_world [] [])).2).2
     [Deliver "$aws/things/test/shadow/update/accepted" reported_42]).1
  = Returns (WokeShadow 0 reported_42).
Proof.
  split; [apply fresh_world_wf|].
  destruct (update_shadow_payload_round_trip test_thing (fresh_world [] []) reported_42
              (fresh_world_wf _ _)) as [(_ & Hlog & _) Hecho].
  split; [exact Hlog|].
  exact (Hecho (ChanShadow 0) (ChanShadow 1) _ reported_42 [] eq_refl).
Defined.

(** C7, the claim as stated fails: with nobody receiving from the channel
    that [SubscribeForCustomTopic] returned, the handler routed for the topic
    blocks on its send. *)
Lemma custom_topic_handler_blocks_without_receiver :
  deliver (SubscribeForCustomTopic test_thing "fancy" (fresh_world [] [])).2 []
          "$aws/things/test/fancy" (bytes_of_string "hello")
  = CallbackBlocks (SendPayload 0) /\
  ~ handlers_never_block.
Proof.
  assert (H : deliver (SubscribeForCustomTopic test_thing "fancy" (fresh_world [] [])).2 []
                "$aws/things/test/fancy" (bytes_of_string "hello")
              = CallbackBlocks (SendPayload 0)) by (vm_compute; reflexivity).
  split; [exact H|]. intros Hnever. exact (Hnever _ _ _ _ _ H).
Qed.

Lemma message_handlers_block_until_received_witness :
  wf (fresh_world [] []) /\
  run_handler ∅ [] (SendPayload 0) (bytes_of_string "hello")
    = CallbackBlocks (SendPayload 0) /\
  run_handler ∅ [ChanShadow 0] (SendPayload 0) (bytes_of_string "hello")
    = HandedShadow 0 (bytes_of_string "hello").
Proof.
  split; [apply fresh_world_wf|].
  destruct (message_handlers_block_until_received test_thing (fresh_world [] [])
              (fresh_world_wf _ _)) as (Hsend & _ & _).
  split.
  - exact (Hsend ∅ [] (SendPayload 0) _ (not_elem_of_empty _)).
  - exact (Hsend ∅ [ChanShadow 0] (SendPayload 0) _ (not_elem_of_empty _)).
Defined.

Lemma shadow_changes_partial_subscription_witness :
  (SubscribeForThingShadowChanges test_thing
     (fresh_world [None; Some "not connected"] [])).1
    = Returns (None, None, Some "not connected") /\
  routes (SubscribeForThingShadowChanges test_thing
            (fresh_world [None; Some "not connected"] [])).2
    !! "$aws/things/test/shadow/update/accepted" = Some (SendPayload 0) /\
  log (SubscribeForThingShadowChanges test_thing
         (fresh_world [None; Some "not connected"] [])).2
    = [ReqSubscribe "$aws/things/test/shadow/update/accepted" 0 (SendPayload 0);
       ReqSubscribe "$aws/things/test/shadow/update/rejected" 0 (SendPayload 1)].
Proof.
  destruct (shadow_changes_partial_subscription_stays test_thing
              (fresh_world [None; Some "not connected"] []) "not connected"
              eq_refl eq_refl) as (Hres & Hlog & _ & Hroute).
  split; [exact Hres|]. split; [exact Hroute|exact Hlog].
Defined.

Lemma session_never_closes_a_sink_witness :
  wf (fresh_world [] []) /\
  (await [ChanShadow 0]
     (UnsubscribeFromCustomTopic test_thing "fancy"
        (run_ops test_thing [OpUpdateThingShadow reported_42]
           (SubscribeForCustomTopic test_thing "fancy" (fresh_world [] [])).2)).2
     [Deliver "$aws/things/test/fancy" (bytes_of_string "hello")]).1 = Blocks.
Proof.
  split; [apply fresh_world_wf|].
  destruct (session_never_closes_a_sink test_thing (fresh_world [] [])
              (fresh_world_wf _ _)) as (_ & _ & Hcustom).
  assert (Hnone : Close 0 ∉ [Deliver "$aws/things/test/fancy" (bytes_of_string "hello")])
    by (intros H%list_elem_of_singleton; discriminate H).
  destruct (Hcustom "fancy" (ChanShadow 0) _ [OpUpdateThingShadow reported_42] _
              [Deliver "$aws/things/test/fancy" (bytes_of_string "hello")]
              eq_refl eq_refl (not_elem_of_nil _) Hnone) as (_ & _ & Hparked & _).
  apply Hparked. intros h p H%list_elem_of_singleton. discriminate H.
Defined.

(** C10, the claim as stated fails: a handler that was parked in its send
    before the unsubscribe is still there after it, and a receive on the
    channel is handed its message instead of staying parked. *)
Lemma parked_handler_outlives_the_unsubscribe :
  arrivals fancy_unsubscribed = [Parked (SendPayload 0) (bytes_of_string "hello")] /\
  routes fancy_unsubscribed !! "$aws/things/test/fancy" = None /\
  (await [ChanShadow 0] fancy_unsubscribed (arrivals fancy_unsubscribed)).1
    = Returns (WokeShadow 0 (bytes_of_string "hello")) /\
  ~ receive_stays_parked test_thing fancy_arrives.
Proof.
  assert (Hwoke : (await [ChanShadow 0] fancy_unsubscribed
                     (arrivals fancy_unsubscribed)).1
                  = Returns (WokeShadow 0 (bytes_of_string "hello")))
    by (vm_compute; reflexivity).
  split; [vm_compute; reflexivity|]. split; [vm_compute; reflexivity|].
  split; [exact Hwoke|].
  intros Hparked.
  pose proof (Hparked "fancy" (ChanShadow 0) _ [OpGetThingShadow] fancy_unsubscribed
                eq_refl eq_refl) as Hblocks.
  rewrite Hwoke in Hblocks. discriminate Hblocks.
Qed.

Lemma NewThing_loses_the_key_pair_error_witness :
  (LoadX509KeyPair host_without_key_pair "./certificates/cert.pem"
     "./certificates/private.key").2
    = Some "open ./certificates/cert.pem: no such file or directory" /\
  NewThing host_without_key_pair test_key_pair "example-ats.iot.us-east-1.amazonaws.com"
           "test"
  = (Some {| client := client_options zero_Certificate
                         (bytes_of_string "-----BEGIN CERTIFICATE-----")
                         "example-ats.iot.us-east-1.amazonaws.com" "test";
             thingName := "test" |}, None).
Proof.
  split; [reflexivity|].
  exact (NewThing_loses_the_key_pair_error host_without_key_pair test_key_pair
           "example-ats.iot.us-east-1.amazonaws.com" "test" _ eq_refl eq_refl eq_refl).
Defined.

(** ** Concrete credential exchanges *)

Example credentials_forbidden :
  (credentials.GetCredentials (host_answering 403 "forbidden" (inr "unused")) test_service).1
  = (credentials.zero_Output,
     Some "the request has failed with the status code: 403; message: forbidden").
Proof. vm_compute. reflexivity. Qed.

(** C8, the claim as stated fails: on a body that does not decode the error
    is made of the decoder's error and does not carry the response body. *)
Lemma decode_failure_error_drops_the_body :
  credentials.Do not_json_host (credentials_client test_service)
    (credentials_request test_service) = inl not_json_response /\
  credentials.Decode not_json_host (credentials.Body not_json_response)
    = inr "invalid character 'o' in literal null (expecting 'u')" /\
  (credentials.GetCredentials not_json_host test_service).1
    = (credentials.zero_Output,
       Some ("failed to parse credentials response body: "
             +:+ "invalid character 'o' in literal null (expecting 'u')")) /\
  ~ error_carries_body not_json_host test_service not_json_response.
Proof.
  repeat split.
  intros (msg & Hmsg & Hcarries).
  vm_compute in Hmsg. injection Hmsg as <-.
  vm_compute in Hcarries. discriminate Hcarries.
Qed.


Example credentials_granted :
  let granted :=
    {| credentials.AccessKeyId := "ASIAEXAMPLE";
       credentials.SecretAccessKey := "secret";
       credentials.SessionToken := "token";
       credentials.Expiration := "2026-01-01T00:00:00Z" |} in
  credentials.GetCredentials (host_answering 200 "{credentials:{...}}" (inl granted))
    test_service
  = ((granted, None), [(credentials_client test_service, credentials_request test_service)]).
Proof. vm_compute. reflexivity. Qed.

(** * Further properties of the session *)

(** ** Well-formedness is kept by every method *)

Lemma close_chan_wf id w : wf w -> wf (close_chan id w).
Proof.
  intros [Hr Hc]. unfold close_chan. case_decide; [|done].
  split; cbn; [exact Hr|].
  intros id' [->%elem_of_singleton|H']%elem_of_union; auto.
Qed.

Lemma stalled_wf receivers h payload evs : forall queued w,
  wf w -> wf (stalled receivers h payload queued w evs).2.
Proof.
  induction evs as [|ev evs IH]; intros queued w Hw; cbn [stalled]; [exact Hw|].
  destruct ev as [topic p|id|h' p]; [by apply IH| |by apply IH].
  pose proof (close_chan_wf id w Hw) as Hw1.
  cbn zeta. case_decide; [exact Hw1|].
  destruct (find _ receivers); [exact Hw1|]. by apply IH.
Qed.

Lemma await_wf receivers evs : forall w, wf w -> wf (await receivers w evs).2.
Proof.
  induction evs as [|ev evs IH]; intros w Hw; cbn [await].
  - destruct (find _ receivers); exact Hw.
  - destruct (find _ receivers); [exact Hw|].
    destruct ev as [topic payload|id|h payload].
    + destruct (deliver w receivers topic payload); cbn [snd];
        first [by apply IH|by apply stalled_wf|exact Hw].
    + apply IH. by apply close_chan_wf.
    + unfold dispatch. destruct (run_handler _ receivers h payload); cbn [snd];
        first [by apply stalled_wf|exact Hw].
Qed.

Lemma select2_wf a b w : wf w -> wf (select2 a b w).2.
Proof.
  intros Hw. unfold select2.
  pose proof (await_wf [ChanShadow a; ChanError b] (arrivals w) w Hw) as H.
  destruct (await _ w (arrivals w)) as [[[[]| |]|] w1]; exact H.
Qed.

Lemma Unsubscribe_wf topics w : wf w -> wf (Unsubscribe topics w).2.
Proof.
  intros [Hr Hc]. unfold Unsubscribe, next_ack.
  destruct (acks w) as [|[e|] rest]; split; cbn; auto.
  all: intros topic h H; apply drop_routes_lookup in H; eauto.
Qed.

Lemma Publish_wf topic qos retained payload w :
  wf w -> wf (Publish topic qos retained payload w).2.
Proof.
  intros [Hr Hc]. unfold Publish, next_ack. destruct (acks w); split; cbn; auto.
Qed.

Lemma at_exit_wf acc rej trig k w : wf w -> wf (at_exit acc rej trig k w).
Proof.
  intros [Hr Hc]. split; cbn.
  - intros topic h H.
    assert (Hold : routes w !! topic = Some h -> chan_id (target h) < S (S (next_chan w)))
      by (intros H'; apply Hr in H'; lia).
    destruct k as [|[|[|k]]]; auto;
      repeat (apply routes_insert_cases in H as [->|H]); cbn; auto.
  - intros id H. apply Hc in H. lia.
Qed.

Lemma correlated_run_wf {A} acc rej trig (fail : error -> A) resolve r w :
  correlated_run acc rej trig fail resolve r w -> wf w -> wf r.2.
Proof.
  unfold correlated_run. intros Hrun Hw.
  assert (Hexit : forall k, wf (cleaned acc rej (at_exit acc rej trig k w)))
    by (intros k; apply Unsubscribe_wf, at_exit_wf, Hw).
  destruct (ack_at 0 w); [subst r; apply Hexit|].
  destruct (ack_at 1 w); [subst r; apply Hexit|].
  destruct (ack_at 2 w); [subst r; apply Hexit|].
  pose proof (select2_wf (next_chan w) (S (next_chan w)) _
                (at_exit_wf acc rej trig 3 w Hw)) as Hsel.
  destruct (select2 _ _ _) as [[sel|] w4]; subst r; cbn [snd] in *.
  - by apply Unsubscribe_wf.
  - exact Hsel.
Qed.

Lemma step_wf t w op : wf w -> wf (step t w op).
Proof.
  intros Hw. destruct op; cbn [step].
  - destruct Hw. split; cbn; auto.
  - exact (correlated_run_wf _ _ _ _ _ _ _ (GetThingShadow_run t w) Hw).
  - by apply Publish_wf.
  - destruct Hw as [Hr Hc]. destruct w as [rt l a n c evs]. cbn in Hr, Hc.
    assert (Hold : forall topic h, rt !! topic = Some h -> chan_id (target h) < S (S n))
      by (intros topic h H'; apply Hr in H'; lia).
    destruct a as [|[e0|] [|[e1|] a]]; run_durable; split; cbn.
    all: try (intros id H; apply Hc in H; lia).
    all: intros topic h H; repeat (apply routes_insert_cases in H as [->|H]);
      cbn; eauto.
  - by apply Publish_wf.
  - exact (correlated_run_wf _ _ _ _ _ _ _ (DeleteThingShadow_run t w) Hw).
  - by apply Publish_wf.
  - destruct Hw as [Hr Hc]. destruct w as [rt l a n c evs]. cbn in Hr, Hc.
    assert (Hold : forall topic h, rt !! topic = Some h -> chan_id (target h) < S n)
      by (intros topic' h H'; apply Hr in H'; lia).
    destruct a as [|[e0|] a]; run_durable; split; cbn.
    all: try (intros id H; apply Hc in H; lia).
    all: intros topic' h H; repeat (apply routes_insert_cases in H as [->|H]);
      cbn; eauto.
  - by apply Unsubscribe_wf.
Qed.

(** X1. Every state a session reaches from a fresh connection, through any
    sequence of its methods, whatever the client answers and whatever
    arrives, is well-formed: every routed handler sends on a channel that was
    made, and only made channels are closed. *)
Theorem reachable_worlds_are_well_formed (t : Thing) (ops : list SessionOp)
    (answers : list (option error)) (evs : list Arrival) :
  wf (run_ops t ops (fresh_world answers evs)).
Proof.
  assert (H : forall ops w, wf w -> wf (run_ops t ops w)).
  { clear. intros ops. induction ops as [|op ops IH]; intros w Hw; cbn; [exact Hw|].
    apply IH. by apply step_wf. }
  apply H, fresh_world_wf.
Qed.

(** ** Private sinks *)

(** X2. Every subscription gets a channel of its own: the channel returned by
    a [SubscribeForCustomTopic] differs from the channels returned by any
    later [SubscribeForCustomTopic] or [SubscribeForThingShadowChanges] of
    the session, whatever was called in between, and the two channels of a
    [SubscribeForThingShadowChanges] differ from each other. *)
Theorem subscriptions_get_channels_of_their_own (t : Thing) (w w1 : World)
    (topic : string) (c : chan) (ops : list SessionOp) :
  SubscribeForCustomTopic t topic w = (Returns (Some c, None), w1) ->
  (forall topic' c' w2,
     SubscribeForCustomTopic t topic' (run_ops t ops w1) = (Returns (Some c', None), w2) ->
     c <> c') /\
  (forall c1 c2 w2,
     SubscribeForThingShadowChanges t (run_ops t ops w1)
       = (Returns (Some c1, Some c2, None), w2) ->
     c <> c1 /\ c <> c2 /\ c1 <> c2).
Proof.
  intros Hsub. apply custom_topic_subscribed in Hsub as (-> & _ & _ & Hn).
  pose proof (ext_chan _ _ (run_ops_extends t ops w1)) as Hle.
  split.
  - intros topic' c' w2 (-> & _)%custom_topic_subscribed. intros [= Heq]. lia.
  - intros c1 c2 w2 (-> & -> & _)%shadow_changes_subscribed.
    repeat split; intros [= Heq]; lia.
Qed.

Lemma subscriptions_get_channels_of_their_own_witness :
  ChanShadow 0 <> ChanShadow 3 /\
  (ChanShadow 0 <> ChanShadow 3 /\ ChanShadow 0 <> ChanShadow 4
   /\ ChanShadow 3 <> ChanShadow 4).
Proof.
  destruct (subscriptions_get_channels_of_their_own test_thing (fresh_world [] []) _
              "fancy" (ChanShadow 0) [OpGetThingShadow] eq_refl) as [Hcustom Hchanges].
  split.
  - exact (Hcustom "fancy" (ChanShadow 3) _ eq_refl).
  - exact (Hchanges (ChanShadow 3) (ChanShadow 4) _ eq_refl).
Defined.

(** ** Correlated requests leave the router as they found it *)

Lemma drop_routes_inserts (r : gmap string MessageHandler) acc rej ha hb :
  drop_routes [acc; rej] (<[rej := hb]> (<[acc := ha]> r)) = drop_routes [acc; rej] r.
Proof.
  apply map_eq. intros k. cbn.
  rewrite !lookup_delete. repeat case_decide; try done.
  by rewrite !lookup_insert_ne.
Qed.

Lemma drop_routes_insert (r : gmap string MessageHandler) acc rej ha :
  drop_routes [acc; rej] (<[acc := ha]> r) = drop_routes [acc; rej] r.
Proof.
  apply map_eq. intros k. cbn.
  rewrite !lookup_delete. repeat case_decide; try done.
  by rewrite !lookup_insert_ne.
Qed.

Lemma cleaned_routes_exactly acc rej w1 :
  ack_at 0 w1 = None ->
  routes (cleaned acc rej w1) = drop_routes [acc; rej] (routes w1).
Proof.
  unfold cleaned, Unsubscribe, next_ack, ack_at.
  destruct (acks w1) as [|[e|] rest]; cbn; try discriminate; reflexivity.
Qed.

Lemma correlated_run_restores {A} acc rej trig (fail : error -> A) resolve r w :
  correlated_run acc rej trig fail resolve r w ->
  forall v, r.1 = Returns v ->
  exists pre,
    log r.2 = log w ++ pre ++ [ReqUnsubscribe [acc; rej]] /\
    next_chan r.2 = S (S (next_chan w)) /\
    (ack_at (length pre) w = None ->
     routes r.2 = delete acc (delete rej (routes w))).
Proof.
  unfold correlated_run. intros Hrun v Hv.
  assert (Hexit : forall k, 1 <= k <= 3 ->
    exists pre,
      log (cleaned acc rej (at_exit acc rej trig k w))
        = log w ++ pre ++ [ReqUnsubscribe [acc; rej]] /\
      next_chan (cleaned acc rej (at_exit acc rej trig k w)) = S (S (next_chan w)) /\
      (ack_at (length pre) w = None ->
       routes (cleaned acc rej (at_exit acc rej trig k w))
       = delete acc (delete rej (routes w)))).
  { intros k Hk.
    exists (take k [sub_accepted acc w; sub_rejected rej w; pub_trigger trig]).
    split; [|split].
    - rewrite cleaned_log. cbn [log at_exit]. by rewrite <- app_assoc.
    - unfold cleaned, Unsubscribe. destruct (next_ack _). reflexivity.
    - intros Hack. rewrite length_take in Hack. cbn [length] in Hack.
      rewrite cleaned_routes_exactly.
      + destruct k as [|[|[|[|k]]]]; try lia; cbn [routes at_exit].
        * reflexivity.
        * apply drop_routes_insert.
        * apply drop_routes_inserts.
      + unfold at_exit. rewrite ack_at_drop.
        replace (k + 0) with (k `min` 3) by lia. exact Hack. }
  destruct (ack_at 0 w) as [e0|]; [subst r; apply Hexit; lia|].
  destruct (ack_at 1 w) as [e1|]; [subst r; apply Hexit; lia|].
  destruct (ack_at 2 w) as [e2|]; [subst r; apply Hexit; lia|].
  pose proof (select2_frame (next_chan w) (S (next_chan w)) (at_exit acc rej trig 3 w))
    as (Hroutes & Hlog & Hacks & Hnext).
  destruct (select2 _ _ _) as [[sel|] w4]; subst r; cbn [snd fst] in *; [|done].
  exists [sub_accepted acc w; sub_rejected rej w; pub_trigger trig].
  split; [|split].
  - rewrite cleaned_log, Hlog. cbn [log at_exit take]. by rewrite <- app_assoc.
  - unfold cleaned, Unsubscribe. destruct (next_ack _). cbn. exact Hnext.
  - intros Hack. rewrite cleaned_routes_exactly.
    + rewrite Hroutes. apply drop_routes_inserts.
    + unfold ack_at. rewrite Hacks. cbn [acks at_exit length] in *.
      rewrite lookup_drop. exact Hack.
Qed.

(** X3. A [GetThingShadow] or [DeleteThingShadow] that returns, and whose
    unsubscribe the client carried out, leaves the router as it found it
    with its two outcome topics removed: no other route is added, changed or
    lost. A route the caller had on an outcome topic is removed with them. *)
Theorem correlated_request_restores_the_router (t : Thing) (w : World) :
  (forall v, (GetThingShadow t w).1 = Returns v ->
   exists pre,
     log (GetThingShadow t w).2
       = log w ++ pre ++ [ReqUnsubscribe
                            ["$aws/things/" +:+ thingName t +:+ "/shadow/get/accepted";
                             "$aws/things/" +:+ thingName t +:+ "/shadow/get/rejected"]] /\
     next_chan (GetThingShadow t w).2 = S (S (next_chan w)) /\
     (ack_at (length pre) w = None ->
      routes (GetThingShadow t w).2
      = delete ("$aws/things/" +:+ thingName t +:+ "/shadow/get/accepted")
          (delete ("$aws/things/" +:+ thingName t +:+ "/shadow/get/rejected")
             (routes w)))) /\
  (forall v, (DeleteThingShadow t w).1 = Returns v ->
   exists pre,
     log (DeleteThingShadow t w).2
       = log w ++ pre ++ [ReqUnsubscribe
                            ["$aws/things/" +:+ thingName t +:+ "/shadow/delete/accepted";
                             "$aws/things/" +:+ thingName t +:+ "/shadow/delete/rejected"]] /\
     next_chan (DeleteThingShadow t w).2 = S (S (next_chan w)) /\
     (ack_at (length pre) w = None ->
      routes (DeleteThingShadow t w).2
      = delete ("$aws/things/" +:+ thingName t +:+ "/shadow/delete/accepted")
          (delete ("$aws/things/" +:+ thingName t +:+ "/shadow/delete/rejected")
             (routes w)))).
Proof.
  split.
  - exact (correlated_run_restores _ _ _ _ _ _ _ (GetThingShadow_run t w)).
  - exact (correlated_run_restores _ _ _ _ _ _ _ (DeleteThingShadow_run t w)).
Qed.

(** ** Results of a correlated request *)

Lemma bytes_of_string_of_bytes (b : list byte) : bytes_of_string (string_of_bytes b) = b.
Proof. apply String.list_byte_of_string_of_list_byte. Qed.

Lemma string_of_bytes_of_string (s : string) : string_of_bytes (bytes_of_string s) = s.
Proof. apply String.string_of_list_byte_of_string. Qed.

(** X4. [Shadow] and [string] convert into each other without loss:
    [Shadow(s).String()] is [s], and [Shadow(sh.String())] is [sh]. *)
Theorem Shadow_String_round_trip (s : string) (sh : Shadow) :
  Shadow_String (bytes_of_string s) = s /\ bytes_of_string (Shadow_String sh) = sh.
Proof.
  unfold Shadow_String. split.
  - apply string_of_bytes_of_string.
  - apply bytes_of_string_of_bytes.
Qed.

Lemma correlated_get_error_has_no_shadow r w acc rej trig :
  correlated_run acc rej trig get_fail get_resolve r w ->
  forall s e, r.1 = Returns (s, Some e) -> s = nil_Shadow.
Proof.
  unfold correlated_run. intros Hrun s e Hr.
  destruct (ack_at 0 w); [subst r; cbn in Hr; by simplify_eq|].
  destruct (ack_at 1 w); [subst r; cbn in Hr; by simplify_eq|].
  destruct (ack_at 2 w); [subst r; cbn in Hr; by simplify_eq|].
  destruct (select2 _ _ _) as [[[s' [|]|err [|]]|] w4]; subst r; cbn in Hr;
    by simplify_eq.
Qed.

(** X5. [GetThingShadow] never returns a shadow together with an error: when
    the error is not nil the shadow is nil. When the client's dispatch gets
    to a message on the rejected topic before anything else concerns the two
    sinks, the returned error's message is that message's payload, byte for
    byte. *)
Theorem GetThingShadow_error_excludes_shadow (t : Thing) (w : World) :
  (forall s e, (GetThingShadow t w).1 = Returns (s, Some e) -> s = nil_Shadow) /\
  (forall payload,
     wf w -> requests_acknowledged w ->
     first_concern ("$aws/things/" +:+ thingName t +:+ "/shadow/get/accepted")
                   ("$aws/things/" +:+ thingName t +:+ "/shadow/get/rejected")
                   (next_chan w) (S (next_chan w)) (routes w) (arrivals w)
       = Some (Some (Deliver ("$aws/things/" +:+ thingName t +:+ "/shadow/get/rejected")
                       payload)) ->
     exists e, (GetThingShadow t w).1 = Returns (nil_Shadow, Some e) /\
               bytes_of_string e = payload).
Proof.
  split.
  - exact (correlated_get_error_has_no_shadow _ _ _ _ _ (GetThingShadow_run t w)).
  - intros payload Hwf Hack Hfirst.
    rewrite (correlated_run_resolution _ _ _ _ _ _ _ (GetThingShadow_run t w) _ Hwf
               (get_topics_distinct _) Hack Hfirst).
    cbn [first_wins].
    rewrite decide_False by (symmetry; apply get_topics_distinct).
    eexists. split; [reflexivity|]. apply bytes_of_string_of_bytes.
Qed.

(** ** Custom topics *)

(** X6. What is published with [PublishToCustomTopic] goes, unchanged, to the
    very topic a [SubscribeForCustomTopic] with the same suffix is routed on,
    and a message the broker delivers on that topic reaches the channel the
    subscription returned, byte for byte. *)
Theorem custom_topic_round_trip (t : Thing) (w w1 : World) (topic : string)
    (c : chan) (p q : Shadow) (evs : list Arrival) :
  wf w ->
  SubscribeForCustomTopic t topic w = (Returns (Some c, None), w1) ->
  let derived := Join ["$aws/things"; thingName t; topic] in
  let r := PublishToCustomTopic t p topic w1 in
  r.1 = Returns (ack_at 0 w1) /\
  log r.2 = log w1 ++ [ReqPublish derived 0 false p] /\
  routes r.2 !! derived = Some (SendPayload (chan_id c)) /\
  (await [c] r.2 (Deliver derived q :: evs)).1 = Returns (WokeShadow (chan_id c) q).
Proof.
  intros [Hroutes Hclosed] Hsub derived r.
  apply custom_topic_subscribed in Hsub as (-> & Hrt & Hcl & Hn). fold derived in Hrt.
  pose proof (publish_frame derived 0 false p w1) as (Hres & Hlog & Hrt2 & Hcl2 & _).
  subst r. unfold PublishToCustomTopic. fold derived.
  set (w2 := (Publish derived 0 false p w1).2) in *.
  assert (Hroute : routes w2 !! derived = Some (SendPayload (next_chan w)))
    by (rewrite Hrt2, Hrt; apply lookup_insert_eq).
  assert (Hopen : next_chan w ∉ closed w2).
  { rewrite Hcl2, Hcl. intros H. apply Hclosed in H. lia. }
  repeat split; try done.
  cbn [await find chan_id]. rewrite (bool_decide_eq_false_2 _ Hopen).
  unfold deliver. rewrite Hroute.
  unfold run_handler, chan_send. cbn [target chan_id].
  rewrite decide_False by done. rewrite decide_True by left. reflexivity.
Qed.

Lemma custom_topic_round_trip_witness :
  wf (fresh_world [] []) /\
  (await [ChanShadow 0]
     (PublishToCustomTopic test_thing reported_42 "fancy"
        (SubscribeForCustomTopic test_thing "fancy" (fresh_world [] [])).2).2
     [Deliver "$aws/things/test/fancy" reported_42]).1
  = Returns (WokeShadow 0 reported_42).
Proof.
  split; [apply fresh_world_wf|].
  exact (proj2 (proj2 (proj2
    (custom_topic_round_trip test_thing (fresh_world [] []) _ "fancy" (ChanShadow 0)
       reported_42 reported_42 [] (fresh_world_wf _ _) eq_refl)))).
Defined.

Lemma shadow_suffix_elements suffix :
  suffix ∈ shadow_suffixes ->
  Forall plain (split_slash ("shadow/" +:+ suffix)) /\
  (".." ∉ split_slash ("shadow/" +:+ suffix)) /\
  "/" +:+ "shadow/" +:+ suffix = "/shadow/" +:+ suffix.
Proof.
  assert (H : Forall (fun suffix =>
                Forall plain (split_slash ("shadow/" +:+ suffix)) /\
                (".." ∉ split_slash ("shadow/" +:+ suffix)) /\
                "/" +:+ "shadow/" +:+ suffix = "/shadow/" +:+ suffix) shadow_suffixes).
  { unfold shadow_suffixes.
    repeat (apply List.Forall_cons; [
      split; [apply (bool_decide_unpack _); vm_compute; exact I|];
      split; [apply (bool_decide_unpack _); vm_compute; exact I|reflexivity] |]).
    apply List.Forall_nil. }
  rewrite Forall_forall in H. apply H.
Qed.

(** X7. For a thing name whose path elements are plain, a custom suffix
    [shadow/<suffix>] with [<suffix>] one of the ten shadow suffixes derives
    exactly the shadow topic of that suffix; so a
    [SubscribeForCustomTopic("shadow/update/documents")] is routed on the
    topic [UpdateThingShadowDocument] publishes to, and receives the
    document the broker sends back on it unchanged. *)
Theorem custom_suffix_reaches_shadow_topics (t : Thing) (w : World) :
  Forall plain (split_slash (thingName t)) -> ".." ∉ split_slash (thingName t) ->
  (forall suffix, suffix ∈ shadow_suffixes ->
     Join ["$aws/things"; thingName t; "shadow/" +:+ suffix]
     = shadow_topic (thingName t) suffix) /\
  (forall c w1 p q evs,
     wf w ->
     SubscribeForCustomTopic t "shadow/update/documents" w = (Returns (Some c, None), w1) ->
     let r := UpdateThingShadowDocument t p w1 in
     (exists topic, log r.2 = log w1 ++ [ReqPublish topic 0 false p] /\
                    routes r.2 !! topic = Some (SendPayload (chan_id c)) /\
                    (await [c] r.2 (Deliver topic q :: evs)).1
                    = Returns (WokeShadow (chan_id c) q))).
Proof.
  intros Hplain Hdd.
  assert (Hjoin : forall suffix, suffix ∈ shadow_suffixes ->
            Join ["$aws/things"; thingName t; "shadow/" +:+ suffix]
            = shadow_topic (thingName t) suffix).
  { intros suffix Hin.
    destruct (shadow_suffix_elements suffix Hin) as (Hp & Hd & Heq).
    rewrite Join_custom_plain by done. unfold shadow_topic. by rewrite Heq. }
  split; [exact Hjoin|].
  intros c w1 p q evs [Hroutes Hclosed] Hsub r.
  apply custom_topic_subscribed in Hsub as (-> & Hrt & Hcl & Hn).
  change "shadow/update/documents" with ("shadow/" +:+ "update/documents") in Hrt.
  rewrite Hjoin in Hrt by (unfold shadow_suffixes; rewrite !elem_of_cons; auto 20).
  set (topic := "$aws/things/" +:+ thingName t +:+ "/shadow/update/documents").
  change (shadow_topic (thingName t) "update/documents") with topic in Hrt.
  pose proof (publish_frame topic 0 false p w1) as (_ & Hlog & Hrt2 & Hcl2 & _).
  subst r. unfold UpdateThingShadowDocument. fold topic.
  set (w2 := (Publish topic 0 false p w1).2) in *.
  assert (Hroute : routes w2 !! topic = Some (SendPayload (next_chan w)))
    by (rewrite Hrt2, Hrt; apply lookup_insert_eq).
  assert (Hopen : next_chan w ∉ closed w2).
  { rewrite Hcl2, Hcl. intros H. apply Hclosed in H. lia. }
  exists topic. repeat split; try done.
  cbn [await find chan_id]. rewrite (bool_decide_eq_false_2 _ Hopen).
  unfold deliver. rewrite Hroute.
  unfold run_handler, chan_send. cbn [target chan_id].
  rewrite decide_False by done. rewrite decide_True by left. reflexivity.
Qed.

Lemma test_thing_name_plain :
  Forall plain (split_slash (thingName test_thing)) /\
  (".." ∉ split_slash (thingName test_thing)).
Proof. split; apply (bool_decide_unpack _); vm_compute; exact I. Qed.

Lemma custom_suffix_reaches_shadow_topics_witness :
  Join ["$aws/things"; "test"; "shadow/update/documents"]
  = "$aws/things/test/shadow/update/documents" /\
  Join ["$aws/things"; "test"; "shadow/get/accepted"]
  = "$aws/things/test/shadow/get/accepted".
Proof.
  destruct (custom_suffix_reaches_shadow_topics test_thing (fresh_world [] [])
              (proj1 test_thing_name_plain) (proj2 test_thing_name_plain)) as [Hjoin _].
  split.
  - apply (Hjoin "update/documents"). unfold shadow_suffixes. rewrite !elem_of_cons. auto 20.
  - apply (Hjoin "get/accepted"). unfold shadow_suffixes. rewrite !elem_of_cons. auto 20.
Defined.

(** A thing name with a doubled separator: the shadow methods keep it as it
    is, the custom-topic methods clean it, and the two topics differ. *)
Example doubled_separator_splits_the_topics :
  let t := {| client := client test_thing; thingName := "a//b" |} in
  log (UpdateThingShadowDocument t reported_42 (fresh_world [] [])).2
    = [ReqPublish "$aws/things/a//b/shadow/update/documents" 0 false reported_42] /\
  Join ["$aws/things"; thingName t; "shadow/update/documents"]
    = "$aws/things/a/b/shadow/update/documents".
Proof. split; reflexivity. Qed.

Lemma clean_elems_keep rooted out e es :
  plain e -> e <> ".." ->
  clean_elems rooted out (e :: es) = clean_elems rooted (e :: out) es.
Proof.
  intros [H1 H2] H3. cbn [clean_elems]. by rewrite !decide_False.
Qed.

Lemma clean_elems_back rooted top out es :
  top <> ".." ->
  clean_elems rooted (top :: out) (".." :: es) = clean_elems rooted out es.
Proof.
  intros H. cbn [clean_elems].
  rewrite (decide_False (P := ".." = "")) by done.
  rewrite (decide_False (P := ".." = ".")) by done.
  rewrite (decide_True (P := ".." = "..")) by done.
  by rewrite decide_False.
Qed.

(** X8. A custom suffix that starts with [../] leaves the thing's own
    namespace: for a thing name that is one plain path element,
    [path.Join] removes the name, and the derived topic is the one of the
    rest of the suffix directly under [$aws/things]. *)
Theorem parent_suffix_drops_the_thing_name (name rest : string) :
  split_slash name = [name] -> plain name -> name <> ".." ->
  Join ["$aws/things"; name; "../" +:+ rest] = Join ["$aws/things"; rest].
Proof.
  intros Hone Hplain Hdd. unfold Join. cbn [foldl].
  rewrite (decide_True (P := "" = "")) by done.
  rewrite (decide_False (P := "$aws/things" = "")) by done.
  rewrite (decide_False (P := "$aws/things" +:+ "/" +:+ name = "")) by done.
  rewrite !decide_False by done.
  unfold Clean. rewrite !decide_False by done.
  replace (is_rooted (("$aws/things" +:+ "/" +:+ name) +:+ "/" +:+ "../" +:+ rest))
    with false by reflexivity.
  replace (is_rooted ("$aws/things" +:+ "/" +:+ rest)) with false by reflexivity.
  cbv zeta.
  change ("../" +:+ rest) with (".." +:+ "/" +:+ rest).
  rewrite !split_slash_app, split_prefix, Hone.
  change (split_slash "..") with [".."]. cbn [app].
  rewrite !clean_elems_keep by (done || (split; discriminate)).
  rewrite clean_elems_back by done.
  reflexivity.
Qed.

Lemma parent_suffix_drops_the_thing_name_witness :
  Join ["$aws/things"; "test"; "../other/shadow/update"]
  = "$aws/things/other/shadow/update".
Proof.
  assert (Hplain : plain "test") by (split; discriminate).
  assert (Hdd : "test" <> "..") by discriminate.
  exact (eq_trans
           (parent_suffix_drops_the_thing_name "test" "other/shadow/update" eq_refl
              Hplain Hdd) eq_refl).
Defined.

(** X9. Custom suffixes with the same plain elements address the same topic:
    duplicate, leading and trailing separators and [.] elements of a suffix
    make no difference. *)
Theorem custom_suffixes_are_normalised (name s1 s2 : string) :
  ".." ∉ split_slash name -> ".." ∉ split_slash s1 -> ".." ∉ split_slash s2 ->
  filter plain (split_slash s1) = filter plain (split_slash s2) ->
  Join ["$aws/things"; name; s1] = Join ["$aws/things"; name; s2].
Proof.
  intros Hn H1 H2 Heq. rewrite !Join_custom by done.
  by rewrite !filter_app, Heq.
Qed.

Lemma custom_suffixes_are_normalised_witness :
  Join ["$aws/things"; "test"; "fancy"] = Join ["$aws/things"; "test"; "/./fancy//"].
Proof.
  apply custom_suffixes_are_normalised;
    first [reflexivity | apply (bool_decide_unpack _); vm_compute; exact I].
Defined.

(** ** Durable subscriptions: a channel or an error *)

(** X10. [SubscribeForThingShadowChanges] and [SubscribeForCustomTopic] never
    wait and never unsubscribe, and return either their channels with a nil
    error or nil channels with the error of the subscribe that failed. When
    the first subscribe fails nothing else is asked of the client and the
    router is left as it was. *)
Theorem durable_subscriptions_return_channels_or_error (t : Thing) (w : World)
    (topic : string) :
  (let r := SubscribeForThingShadowChanges t w in
   arrivals r.2 = arrivals w /\
   match subscribe_failure w with
   | Some e => r.1 = Returns (None, None, Some e)
   | None => r.1 = Returns (Some (ChanShadow (next_chan w)),
                            Some (ChanShadow (S (next_chan w))), None)
   end /\
   (forall e, ack_at 0 w = Some e ->
      routes r.2 = routes w /\
      log r.2 = log w ++ [ReqSubscribe
                            ("$aws/things/" +:+ thingName t +:+ "/shadow/update/accepted")
                            0 (SendPayload (next_chan w))])) /\
  (let r := SubscribeForCustomTopic t topic w in
   arrivals r.2 = arrivals w /\
   log r.2 = log w ++ [ReqSubscribe (Join ["$aws/things"; thingName t; topic]) 0
                         (SendPayload (next_chan w))] /\
   match ack_at 0 w with
   | Some e => r.1 = Returns (None, Some e) /\ routes r.2 = routes w
   | None => r.1 = Returns (Some (ChanShadow (next_chan w)), None) /\
             routes r.2 = <[Join ["$aws/things"; thingName t; topic]
                              := SendPayload (next_chan w)]> (routes w)
   end).
Proof.
  destruct w as [rt l a n c evs]. unfold subscribe_failure, ack_at. split.
  - destruct a as [|[e0|] [|[e1|] a]]; run_durable;
      rewrite <- ?app_assoc; cbn [app]; repeat split; done.
  - destruct a as [|[e0|] a]; run_durable; repeat split.
Qed.

(** X11. The two sinks of [SubscribeForThingShadowChanges] are fed
    separately: a message on update/rejected reaches the second channel
    unchanged and does not wake a receiver of the first, and a message on
    update/accepted does not wake a receiver of the second. *)
Theorem shadow_change_sinks_are_separate (t : Thing) (w w1 : World) (c c' : chan)
    (q : Shadow) (evs : list Arrival) :
  wf w ->
  SubscribeForThingShadowChanges t w = (Returns (Some c, Some c', None), w1) ->
  let accepted := "$aws/things/" +:+ thingName t +:+ "/shadow/update/accepted" in
  let rejected := "$aws/things/" +:+ thingName t +:+ "/shadow/update/rejected" in
  (await [c'] w1 (Deliver rejected q :: evs)).1 = Returns (WokeShadow (chan_id c') q) /\
  (await [c] w1 [Deliver rejected q]).1 = Blocks /\
  (await [c'] w1 [Deliver accepted q]).1 = Blocks.
Proof.
  intros [Hroutes Hclosed] Hsub accepted rejected.
  apply shadow_changes_subscribed in Hsub as (-> & -> & Hrt & Hcl & Hn).
  fold accepted rejected in Hrt.
  assert (Hopen : forall k, next_chan w + k ∉ closed w1).
  { intros k H. rewrite Hcl in H. apply Hclosed in H. lia. }
  pose proof (Hopen 0) as H0. rewrite Nat.add_0_r in H0.
  pose proof (Hopen 1) as H1. rewrite Nat.add_1_r in H1.
  assert (Hacc : routes w1 !! accepted = Some (SendPayload (next_chan w))).
  { rewrite Hrt, lookup_insert_ne by (symmetry; apply update_topics_distinct).
    apply lookup_insert_eq. }
  assert (Hrej : routes w1 !! rejected = Some (SendPayload (S (next_chan w))))
    by (rewrite Hrt; apply lookup_insert_eq).
  cbn [chan_id]. repeat split.
  - cbn [await find chan_id]. rewrite (bool_decide_eq_false_2 _ H1).
    unfold deliver, run_handler, chan_send. rewrite Hrej. cbn [target chan_id].
    rewrite decide_False by done. rewrite decide_True by left. reflexivity.
  - cbn [await find chan_id]. rewrite (bool_decide_eq_false_2 _ H0).
    unfold deliver, run_handler, chan_send. rewrite Hrej. cbn [target chan_id].
    rewrite decide_False by done.
    rewrite decide_False by (intros [=]%list_elem_of_singleton; lia).
    reflexivity.
  - cbn [await find chan_id]. rewrite (bool_decide_eq_false_2 _ H1).
    unfold deliver, run_handler, chan_send. rewrite Hacc. cbn [target chan_id].
    rewrite decide_False by done.
    rewrite decide_False by (intros [=]%list_elem_of_singleton; lia).
    reflexivity.
Qed.

Lemma shadow_change_sinks_are_separate_witness :
  wf (fresh_world [] []) /\
  (await [ChanShadow 1]
     (SubscribeForThingShadowChanges test_thing (fresh_world [] [])).2
     [Deliver "$aws/things/test/shadow/update/rejected" (bytes_of_string "invalid JSON")]).1
  = Returns (WokeShadow 1 (bytes_of_string "invalid JSON")) /\
  (await [ChanShadow 0]
     (SubscribeForThingShadowChanges test_thing (fresh_world [] [])).2
     [Deliver "$aws/things/test/shadow/update/rejected" (bytes_of_string "invalid JSON")]).1
  = Blocks.
Proof.
  split; [apply fresh_world_wf|].
  destruct (shadow_change_sinks_are_separate test_thing (fresh_world [] []) _
              (ChanShadow 0) (ChanShadow 1) (bytes_of_string "invalid JSON") []
              (fresh_world_wf _ _) eq_refl) as (Hrej & Hacc & _).
  split; [exact Hrej|exact Hacc].
Defined.

(** ** Session construction, both revisions *)

(** X12. [NewThing] returns exactly one of a [Thing] and an error. The error
    is the one of reading the CA bundle or, when that was read, the one of
    the connect. A returned [Thing] is connected to
    [ssl://<endpoint>:8883] with the thing name as client identifier, a
    reconnect interval of at most one second, and the CA bundle that was
    read as its root pool. *)
Theorem NewThing_returns_a_thing_or_an_error (host : Host) (keyPair : KeyPair)
    (awsEndpoint name : string) :
  let read := ReadFile host (CACertificatePath keyPair) in
  match NewThing host keyPair awsEndpoint name with
  | (Some thing, None) =>
      read.2 = None /\ Connect host (client thing) = None /\
      thingName thing = name /\
      ClientID (client thing) = name /\
      Servers (client thing) = ["ssl://" +:+ awsEndpoint +:+ ":8883"] /\
      MaxReconnectInterval (client thing) = 1000000000%Z /\
      RootCAs (TLSConfig (client thing)) = [read.1]
  | (None, Some e) =>
      read.2 = Some e \/
      (read.2 = None /\ exists opts, ClientID opts = name /\ Connect host opts = Some e)
  | _ => False
  end.
Proof.
  intros read. rewrite NewThing_cases. fold read.
  destruct (read.2) as [e|] eqn:Hread; [by left|].
  destruct (Connect host _) as [e|] eqn:Hconnect.
  - right. split; [done|]. eexists. split; [|exact Hconnect]. reflexivity.
  - cbn. repeat split; done.
Qed.

(** X13. In the earlier revision, [NewThing] returns the error of loading the
    key pair at once, with no [Thing] and without connecting; once the key
    pair is loaded it returns a [Thing] in every case, together with the
    error of the connect when the connect failed. *)
Theorem earlier_NewThing_checks_the_key_pair (host : Host)
    (keyPair : device_region.KeyPair) (name region : string) :
  let loaded := LoadX509KeyPair host (device_region.CertificatePath keyPair)
                  (device_region.PrivateKeyPath keyPair) in
  match device_region.NewThing host keyPair name region with
  | (None, Some e) => loaded.2 = Some e
  | (Some thing, err) =>
      loaded.2 = None /\ err = Connect host (client thing) /\
      thingName thing = name /\ ClientID (client thing) = name /\
      Servers (client thing) = ["ssl://data.iot." +:+ region +:+ ".amazonaws.com:8883"] /\
      Certificates (TLSConfig (client thing)) = [loaded.1]
  | (None, None) => False
  end.
Proof.
  intros loaded. subst loaded. unfold device_region.NewThing.
  destruct (LoadX509KeyPair host _ _) as [tlsCert [e|]]; cbn; [reflexivity|].
  repeat split.
Qed.

Ltac run_earlier :=
  unfold device_region.GetThingShadow, mbind, Go_bind, mret, Go_ret, make_chan,
    Subscribe, Publish, next_ack;
  cbn -[await select2 insert delete String.append].

Lemma earlier_GetThingShadow_run t w :
  let acc := "$aws/things/" +:+ thingName t +:+ "/shadow/get/accepted" in
  let rej := "$aws/things/" +:+ thingName t +:+ "/shadow/get/rejected" in
  let trig := "$aws/things/" +:+ thingName t +:+ "/shadow/get" in
  let r := device_region.GetThingShadow t w in
  match ack_at 0 w, ack_at 1 w, ack_at 2 w with
  | Some e, _, _ => r = (Returns (get_fail e), at_exit acc rej trig 1 w)
  | None, Some e, _ => r = (Returns (get_fail e), at_exit acc rej trig 2 w)
  | None, None, Some e => r = (Returns (get_fail e), at_exit acc rej trig 3 w)
  | None, None, None =>
      match select2 (next_chan w) (S (next_chan w)) (at_exit acc rej trig 3 w) with
      | (Returns sel, w4) => r = (Returns (get_resolve sel), w4)
      | (Blocks, w4) => r = (Blocks, w4)
      end
  end.
Proof.
  intros acc rej trig r. subst acc rej trig r.
  destruct w as [rt l a n c evs]. unfold ack_at.
  destruct a as [|[e1|] [|[e2|] [|[e3|] a]]]; cbn [acks lookup list_lookup default];
    unfold at_exit, sub_accepted, sub_rejected, pub_trigger; run_earlier;
    rewrite <- ?app_assoc, ?drop_0; cbn [app]; try reflexivity.
  all: match goal with |- context [select2 ?a ?b ?w] =>
      destruct (select2 a b w) as [[[s [|]|err [|]]|] w4] end; reflexivity.
Qed.

(** X14. The earlier [GetThingShadow] never unsubscribes: whatever happens,
    its requests are the subscribe to the accepted topic, then the subscribe
    to the rejected topic, then one publish of the trigger, or a beginning
    of that sequence; and when all three were acknowledged both outcome
    topics stay routed to its two channels once it has returned. *)
Theorem earlier_GetThingShadow_leaves_its_subscriptions (t : Thing) (w : World) :
  let r := device_region.GetThingShadow t w in
  let accepted := "$aws/things/" +:+ thingName t +:+ "/shadow/get/accepted" in
  let rejected := "$aws/things/" +:+ thingName t +:+ "/shadow/get/rejected" in
  (exists k, 1 <= k <= 3 /\
     log r.2 = log w ++
       take k [ReqSubscribe accepted 0 (SendPayload (next_chan w));
               ReqSubscribe rejected 0 (SendError (S (next_chan w)));
               ReqPublish ("$aws/things/" +:+ thingName t +:+ "/shadow/get") 0 false
                          (bytes_of_string "{}")]) /\
  (requests_acknowledged w ->
   routes r.2 !! accepted = Some (SendPayload (next_chan w)) /\
   routes r.2 !! rejected = Some (SendError (S (next_chan w)))).
Proof.
  intros r accepted rejected. pose proof (earlier_GetThingShadow_run t w) as Hrun.
  cbv zeta in Hrun. fold r accepted rejected in Hrun. unfold requests_acknowledged.
  set (trig := "$aws/things/" +:+ thingName t +:+ "/shadow/get") in *.
  assert (Hexit : forall k, 1 <= k <= 3 ->
    exists k', 1 <= k' <= 3 /\
      log (at_exit accepted rejected trig k w) = log w ++
        take k' [ReqSubscribe accepted 0 (SendPayload (next_chan w));
                 ReqSubscribe rejected 0 (SendError (S (next_chan w)));
                 ReqPublish trig 0 false (bytes_of_string "{}")]).
  { intros k Hk. exists k. split; [exact Hk|reflexivity]. }
  destruct (ack_at 0 w) as [e0|];
    [rewrite Hrun; split; [apply Hexit; lia|intros (? & _); discriminate]|].
  destruct (ack_at 1 w) as [e1|];
    [rewrite Hrun; split; [apply Hexit; lia|intros (_ & ? & _); discriminate]|].
  destruct (ack_at 2 w) as [e2|];
    [rewrite Hrun; split; [apply Hexit; lia|intros (_ & _ & ?); discriminate]|].
  pose proof (select2_frame (next_chan w) (S (next_chan w))
                (at_exit accepted rejected trig 3 w)) as (Hroutes & Hlog & _).
  assert (Hw4 : forall w4, w4 = (select2 (next_chan w) (S (next_chan w))
                                   (at_exit accepted rejected trig 3 w)).2 ->
    (exists k, 1 <= k <= 3 /\
       log w4 = log w ++
         take k [ReqSubscribe accepted 0 (SendPayload (next_chan w));
                 ReqSubscribe rejected 0 (SendError (S (next_chan w)));
                 ReqPublish trig 0 false (bytes_of_string "{}")]) /\
    (True /\ True /\ True ->
     routes w4 !! accepted = Some (SendPayload (next_chan w)) /\
     routes w4 !! rejected = Some (SendError (S (next_chan w))))).
  { intros w4 ->. rewrite Hroutes, Hlog. split; [apply Hexit; lia|]. intros _.
    cbn [routes at_exit]. split.
    - rewrite lookup_insert_ne by (symmetry; apply get_topics_distinct).
      apply lookup_insert_eq.
    - apply lookup_insert_eq. }
  destruct (select2 _ _ _) as [[sel|] w4]; rewrite Hrun; cbn [snd];
    destruct (Hw4 w4 eq_refl) as [H1 H2]; split; auto.
Qed.

(** ** Leaving a custom topic *)

(** X15. [UnsubscribeFromCustomTopic] undoes [SubscribeForCustomTopic] with the
    same suffix: when both requests are acknowledged, one unsubscribe of the
    derived topic is sent, the topic is no longer routed, the other routes
    are as before the subscription, and a message delivered on the topic
    afterwards finds no handler, so that the returned channel is never fed
    again. *)
Theorem custom_topic_unsubscribe_stops_delivery (t : Thing) (topic : string)
    (w : World) :
  ack_at 0 w = None ->
  ack_at 1 w = None ->
  let derived := Join ["$aws/things"; thingName t; topic] in
  let w1 := (SubscribeForCustomTopic t topic w).2 in
  let r := UnsubscribeFromCustomTopic t topic w1 in
  r.1 = Returns None /\
  log r.2 = log w1 ++ [ReqUnsubscribe [derived]] /\
  routes w1 !! derived = Some (SendPayload (next_chan w)) /\
  routes r.2 = delete derived (routes w) /\
  closed r.2 = closed w /\
  (forall receivers payload, deliver r.2 receivers derived payload = NoRoute).
Proof.
  intros H0 H1 derived w1 r. subst w1 r derived.
  destruct w as [rt l a n c evs]. unfold ack_at in *. cbn [acks] in *.
  assert (Hdel : forall k (h : MessageHandler),
            delete k (<[k := h]> rt) = delete k rt).
  { intros k h. apply map_eq. intros i.
    rewrite !lookup_delete, lookup_insert. repeat case_decide; congruence. }
  destruct a as [|[e0|] [|[e1|] a]]; cbn [lookup list_lookup default] in *;
    try discriminate; run_durable; unfold deliver; cbn [routes drop_routes foldr];
    rewrite Hdel;
    (repeat split; [apply lookup_insert_eq|];
     intros receivers payload; rewrite lookup_delete, decide_True by done;
     reflexivity).
Qed.

Lemma custom_topic_unsubscribe_stops_delivery_witness :
  deliver
    (UnsubscribeFromCustomTopic test_thing "fancy"
       (SubscribeForCustomTopic test_thing "fancy" (fresh_world [] [])).2).2
    [ChanShadow 0] (Join ["$aws/things"; thingName test_thing; "fancy"]) reported_42
  = NoRoute.
Proof.
  exact (proj2 (proj2 (proj2 (proj2 (proj2
    (custom_topic_unsubscribe_stops_delivery test_thing "fancy" (fresh_world [] [])
       eq_refl eq_refl))))) [ChanShadow 0] reported_42).
Defined.

(** ** The credentials service *)

(** X16. [GetCredentials] returns no error only when the request was made,
    the provider answered it with status 200 and the body decoded, and then
    it returns the decoded credentials; with every error it returns the zero
    [Output]; and when the request cannot be made nothing is sent. *)
Theorem GetCredentials_succeeds_only_on_decoded_200
    (host : credentials.Host) (s : credentials.Service) :
  let r := credentials.GetCredentials host s in
  (forall out,
     r.1 = (out, None) <->
     exists resp,
       credentials.ParseURL host (credentials.url s) = None /\
       credentials.Do host (credentials_client s) (credentials_request s) = inl resp /\
       credentials.StatusCode resp = credentials.http_StatusOK /\
       credentials.Decode host (credentials.Body resp) = inl out) /\
  (forall out e, r.1 = (out, Some e) -> out = credentials.zero_Output) /\
  (forall e, credentials.ParseURL host (credentials.url s) = Some e -> r.2 = []).
Proof.
  intros r. subst r.
  unfold credentials.GetCredentials, credentials.http_NewRequest,
    credentials.Header_Add, credentials.ReadAll, credentials_client,
    credentials_request.
  cbn [credentials.Method credentials.URL credentials.Header app].
  replace (time_Second * 10)%Z with (10 * time_Second)%Z by apply Z.mul_comm.
  destruct (credentials.ParseURL host (credentials.url s)) as [e|] eqn:Hurl.
  { cbn [fst snd].
    split; [intros out; split; [intros H; discriminate H
                               |intros (resp & H & _); discriminate H]|].
    split; [intros out e' H; congruence|reflexivity]. }
  destruct (credentials.Do host _ _) as [resp|e] eqn:Hdo.
  2: { cbn [fst snd].
       split; [intros out; split; [intros H; discriminate H
                                  |intros (resp & _ & H & _); discriminate H]|].
       split; [intros out e' H; congruence|intros e' H; discriminate H]. }
  case_decide as Hstatus.
  { destruct (credentials.read_err (credentials.Body resp)); cbn [fst snd];
      (split; [intros out; split; [intros H; discriminate H
                 |intros (resp' & _ & H & Hok & _); injection H as <-; contradiction]|];
       split; [intros out e' H; congruence|intros e' H; discriminate H]). }
  destruct (credentials.Decode host (credentials.Body resp)) as [out'|e] eqn:Hdec;
    cbn [fst snd].
  - split; [intros out; split|split].
    + intros H. injection H as <-. exists resp. done.
    + intros (resp' & _ & H & _ & Hd). injection H as <-. congruence.
    + intros out e' H. discriminate H.
    + intros e' H. discriminate H.
  - split; [intros out; split|split].
    + intros H. discriminate H.
    + intros (resp' & _ & H & _ & Hd). injection H as <-. congruence.
    + intros out e' H. congruence.
    + intros e' H. discriminate H.
Qed.

(** X17. A service made by [NewService] asks for its credentials with what it
    was made from: every request of its [GetCredentials] is a GET of the
    given URL, carries the given thing name in [x-amzn-iot-thingname], and
    presents the certificate that was loaded from the given paths. When the
    certificate cannot be loaded there is no service, and the error is the
    loader's behind the package's prefix. *)
Theorem NewService_requests_with_its_arguments (host : credentials.Host)
    (iotCredentialsURL certPath privateKeyPath name : string) :
  let loaded := credentials.LoadX509KeyPair host certPath privateKeyPath in
  match credentials.NewService host iotCredentialsURL certPath privateKeyPath name with
  | (Some s, None) =>
      loaded.2 = None /\
      forall x, x ∈ (credentials.GetCredentials host s).2 ->
        x = ({| credentials.TLSClientCertificates := [loaded.1];
                credentials.Timeout := 10 * time_Second |},
             {| credentials.Method := "GET";
                credentials.URL := iotCredentialsURL;
                credentials.Header := [("x-amzn-iot-thingname", name)] |})
  | (None, Some e) =>
      exists cause, loaded.2 = Some cause /\
        e = "failed to load the certificates: " +:+ cause
  | _ => False
  end.
Proof.
  intros loaded. subst loaded. unfold credentials.NewService.
  destruct (credentials.LoadX509KeyPair host certPath privateKeyPath) as [cert [e|]];
    cbn [fst snd]; [eauto|].
  split; [reflexivity|]. intros x.
  unfold credentials.GetCredentials, credentials.http_NewRequest,
    credentials.Header_Add, credentials.ReadAll.
  cbn [credentials.url credentials.thingName credentials.tlsCert
       credentials.Method credentials.URL credentials.Header app].
  replace (time_Second * 10)%Z with (10 * time_Second)%Z by apply Z.mul_comm.
  destruct (credentials.ParseURL host iotCredentialsURL);
    cbn [snd credentials.Method credentials.URL credentials.Header app];
    [intros []%elem_of_nil|].
  destruct (credentials.Do host _ _) as [resp|e]; cbn [snd];
    [|intros ->%list_elem_of_singleton; reflexivity].
  case_decide.
  - destruct (credentials.read_err (credentials.Body resp)); cbn [snd];
      intros ->%list_elem_of_singleton; reflexivity.
  - destruct (credentials.Decode host (credentials.Body resp)); cbn [snd];
      intros ->%list_elem_of_singleton; reflexivity.
Qed.

(** ** The earlier subscription to shadow changes *)

(** X18. The earlier [SubscribeForThingShadowChanges] returns its channel
    also when the subscribe failed, next to the error. Nothing is routed to
    that channel then: a receive on it stays parked whatever messages
    arrive, unless somebody closes the channel. *)
Theorem earlier_shadow_changes_channel_is_silent_on_error (t : Thing) (w : World)
    (e : error) (evs : list Arrival) :
  wf w ->
  ack_at 0 w = Some e ->
  Close (next_chan w) ∉ evs ->
  (forall h p, Parked h p ∈ evs -> target h <> ChanShadow (next_chan w)) ->
  let r := device_region.SubscribeForThingShadowChanges t w in
  r.1 = Returns (Some (ChanShadow (next_chan w)), Some e) /\
  routes r.2 = routes w /\
  (await [ChanShadow (next_chan w)] r.2 evs).1 = Blocks.
Proof.
  intros [Hroutes Hclosed] Hack Hevs Hparked r. subst r.
  destruct w as [rt l a n c arr]. unfold ack_at in Hack. cbn [acks next_chan] in *.
  destruct a as [|[e0|] a]; cbn [lookup list_lookup default] in Hack;
    try discriminate Hack. injection Hack as ->.
  unfold device_region.SubscribeForThingShadowChanges, mbind, Go_bind, mret, Go_ret,
    make_chan, Subscribe, next_ack.
  cbn -[await insert String.append].
  split; [reflexivity|]. split; [reflexivity|].
  apply await_silent; cbn [routes closed].
  - intros topic h Hh Ht%list_elem_of_singleton.
    apply Hroutes in Hh. rewrite Ht in Hh. cbn [chan_id next_chan] in Hh. lia.
  - intros ch ->%list_elem_of_singleton. cbn [chan_id]. split; [|exact Hevs].
    intros Hin. apply Hclosed in Hin. cbn [next_chan] in Hin. lia.
  - intros h p Hin Ht%list_elem_of_singleton. by apply (Hparked h p).
Qed.

Lemma earlier_shadow_changes_channel_is_silent_on_error_witness :
  (await [ChanShadow 0]
     (device_region.SubscribeForThingShadowChanges test_thing
        (fresh_world [Some "not connected"] [])).2
     [Deliver "$aws/things/test/shadow/update/accepted" reported_42]).1 = Blocks.
Proof.
  refine (proj2 (proj2
    (earlier_shadow_changes_channel_is_silent_on_error test_thing
       (fresh_world [Some "not connected"] []) "not connected"
       [Deliver "$aws/things/test/shadow/update/accepted" reported_42]
       (fresh_world_wf _ _) eq_refl _ _))).
  - intros H%list_elem_of_singleton. discriminate H.
  - intros h p H%list_elem_of_singleton. discriminate H.
Defined.
